(** * refpy: pseudo-Boolean constraints and proof rules

    A shallow embedding of [refpy/constraints.py] and [refpy/rules.py].
    Python integers are [Z]; a Python exception is a [Raise] in the
    [result] monad; an object mutated in place is a value passed through
    the operation and returned by it. *)

From Stdlib Require Import ZArith Lia String Ascii.
From stdpp Require Import prelude strings sorting.

Local Open Scope Z_scope.

(** ** Exceptions *)

Inductive PyError :=
| IndexError | StopIteration | AssertionError | ZeroDivisionError
| TypeError | ValueError | ParseError | AttributeError | RuntimeError.

Inductive result (A : Type) :=
| Ok (a : A)
| Raise (e : PyError).
Arguments Ok {A} a.
Arguments Raise {A} e.

Global Instance result_ret : MRet result := @Ok.
Global Instance result_bind : MBind result := λ A B f m,
  match m with Ok a => f a | Raise e => Raise e end.
Global Instance result_fmap : FMap result := λ A B f m,
  match m with Ok a => Ok (f a) | Raise e => Raise e end.

(** [list(map(f, l))] for an [f] that may raise. *)
Fixpoint map_result {A B} (f : A → result B) (l : list A) : result (list B) :=
  match l with
  | [] => Ok []
  | x :: r => y ← f x; ys ← map_result f r; Ok (y :: ys)
  end.

(** ** constraints.py *)

(** [copysign]. *)
Definition copysign (a b : Z) : Z :=
  if bool_decide (0 ≤ b) then Z.abs a else - Z.abs a.

(** [Term = structclass("Term", "coefficient variable")]; two terms are
    equal when both fields are. *)
Record Term := mkTerm { coefficient : Z; variable : Z }.

Global Instance Term_eq_dec : EqDecision Term.
Proof. solve_decision. Defined.

(** [AllBooleanUpperBound.__getitem__]. *)
Definition variableUpperBounds (key : Z) : Z := 1.

(** The sort key [lambda x: abs(x.variable)], also the key of [dict]. *)
Definition key (x : Term) : Z := Z.abs (variable x).

(** [sorted(l, key = key)]: Python's sort is stable, as is insertion from
    the right in front of the first element that is not smaller. *)
Fixpoint insert_sorted (x : Term) (l : list Term) : list Term :=
  match l with
  | [] => [x]
  | y :: r => if bool_decide (key x ≤ key y) then x :: y :: r
              else y :: insert_sorted x r
  end.

Fixpoint sorted (l : list Term) : list Term :=
  match l with
  | [] => []
  | x :: r => insert_sorted x (sorted r)
  end.

(** What [addWithFactor] and [__eq__] read of their other operand, which is
    an [Inequality] or a [LazyInequality]: the attributes [terms] and
    [degree] (properties that may raise on a [LazyInequality]) and the
    method [contract]. *)
Class ConstraintView (A : Type) := {
  view_terms : A → result (list Term);
  view_degree : A → result Z;
  view_contract : A → A
}.

Module Inequality.

(** A Python dict keeps its keys in insertion order.  Every value of
    [_dict] is one of the Term objects of [terms] (the comprehension in
    [dict] and the assignment [self.dict[...] = self.terms[-1]] are the
    only writes), so it is stored as the position of that object in
    [terms]: a change of the term through either name is a change at that
    position. *)
Definition Dict := list (Z * nat).

Record t := mk {
  degree : Z;
  terms : list Term;
  _dict : option Dict
}.

(** [d[k] = v]: replaces the value of a present key in place, appends an
    absent one. *)
Fixpoint dict_set (k : Z) (i : nat) (d : Dict) : Dict :=
  match d with
  | [] => [(k, i)]
  | (k', j) :: r => if bool_decide (k = k') then (k, i) :: r
                    else (k', j) :: dict_set k i r
  end.

(** [d[k]], [None] standing for KeyError. *)
Fixpoint dict_get (k : Z) (d : Dict) : option nat :=
  match d with
  | [] => None
  | (k', j) :: r => if bool_decide (k = k') then Some j else dict_get k r
  end.

(** [{abs(x.variable): x for x in self.terms}], from position [i] on. *)
Fixpoint dict_fill (d : Dict) (i : nat) (ts : list Term) : Dict :=
  match ts with
  | [] => d
  | x :: r => dict_fill (dict_set (key x) i d) (S i) r
  end.

(** [normalize], run over the terms handed to the constructor: the
    callers in this repository build a fresh Term for every entry. *)
Fixpoint normalize (ts : list Term) (deg : Z) : list Term * Z :=
  match ts with
  | [] => ([], deg)
  | term :: rest =>
      if bool_decide (coefficient term < 0) then
        let variable' := - variable term in
        let coefficient' := Z.abs (coefficient term) in
        let '(rest', deg') :=
          normalize rest
            (deg + variableUpperBounds (Z.abs variable') * coefficient') in
        (mkTerm coefficient' variable' :: rest', deg')
      else
        let '(rest', deg') := normalize rest deg in
        (term :: rest', deg')
  end.

(** [Inequality(terms, degree)]. *)
Definition __init__ (terms : list Term) (degree : Z) : t :=
  let '(terms', degree') := normalize terms degree in
  mk degree' terms' None.

(** The property [dict]: the cached dict, built on first use. *)
Definition dict (self : t) : Dict * t :=
  match _dict self with
  | Some d => (d, self)
  | None =>
      let d := dict_fill [] 0 (terms self) in
      (d, mk (degree self) (terms self) (Some d))
  end.

(** [contract]. *)
Definition contract (self : t) : t :=
  match _dict self with
  | Some d =>
      mk (degree self)
         (filter (λ x, coefficient x ≠ 0)
                 (omap (λ '(_, i), terms self !! i) d))
         None
  | None => self
  end.

(** One round of the loop [for other in otherTerms] of [addWithFactor]. *)
Definition merge (self : t) (other : Term) : t :=
  let '(d, self) := dict self in
  match dict_get (Z.abs (variable other)) d with
  | None =>
      mk (degree self)
         (terms self ++ [mkTerm (coefficient other) (variable other)])
         (Some (dict_set (Z.abs (variable other)) (length (terms self)) d))
  | Some i =>
      match terms self !! i with
      | Some my =>
          if bool_decide (Z.abs (variable my) = Z.abs (variable other)) then
            let a := copysign (coefficient my) (variable my) in
            let b := copysign (coefficient other) (variable other) in
            let newCoefficient := a + b in
            let newVariable := copysign (Z.abs (variable my)) newCoefficient in
            let newCoefficient := Z.abs newCoefficient in
            let cancellation :=
              Z.max 0 (Z.max (coefficient my) (coefficient other)
                       - newCoefficient) in
            mk (degree self
                - cancellation * variableUpperBounds (Z.abs (variable my)))
               (<[i := mkTerm newCoefficient newVariable]> (terms self))
               (_dict self)
          else self
      | None => self
      end
  end.

(** [addWithFactor]; [other] is read before anything is changed that the
    caller could see after an exception. *)
Definition addWithFactor `{ConstraintView A}
    (self : t) (factor : Z) (other : A) : result t :=
  other_degree ← view_degree other;
  let self := mk (degree self + factor * other_degree)
                 (terms self) (_dict self) in
  other_terms ← view_terms other;
  let otherTerms :=
    map (λ x, mkTerm (factor * coefficient x) (variable x)) other_terms in
  Ok (fold_left merge otherTerms self).

(** [saturate]. *)
Definition saturate (self : t) : t :=
  let '(_, self) := dict self in
  mk (degree self)
     (map (λ term,
           mkTerm (Z.min (coefficient term) (degree self)) (variable term))
          (terms self))
     (_dict self).

(** [divide]: [//] is floor division, as [Z.div] is, and raises on 0; the
    degree is always divided. *)
Definition divide (self : t) (d : Z) : result t :=
  if bool_decide (d = 0) then Raise ZeroDivisionError
  else
    Ok (mk ((degree self + d - 1) `div` d)
           (map (λ term,
                 mkTerm ((coefficient term + d - 1) `div` d) (variable term))
                (terms self))
           (_dict self)).

(** [multiply]. *)
Definition multiply (self : t) (f : Z) : t :=
  mk (degree self * f)
     (map (λ term, mkTerm (coefficient term * f) (variable term))
          (terms self))
     (_dict self).

(** [__eq__]; [and] does not evaluate its right operand after a false
    left one. *)
Definition __eq__ `{ConstraintView A} (self : t) (other : A) : result bool :=
  let self := contract self in
  let other := view_contract other in
  other_degree ← view_degree other;
  if bool_decide (degree self = other_degree) then
    other_terms ← view_terms other;
    Ok (bool_decide (sorted (terms self) = sorted other_terms))
  else Ok false.

(** [isContradiction]. *)
Definition isContradiction (self : t) : bool :=
  let slack :=
    fold_left (λ slack term, slack + coefficient term) (terms self)
              (- degree self) in
  bool_decide (slack < 0).

(** What [fromParsy] is handed: the list of literals of a clause, or the
    tuple of the pairs (coefficient, literal), the relation and the degree
    of a constraint. *)
Inductive Parsed :=
| Clause (t : list Z)
| Tuple (terms : list (Z * Z)) (eq : string) (degree : Z).

(** [fromParsy], the list it wraps in [parsy.success]. *)
Definition fromParsy (t : Parsed) : list Inequality.t :=
  match t with
  | Clause t => [__init__ (map (λ l, mkTerm 1 l) t) 1]
  | Tuple terms eq degree =>
      __init__ (map (λ '(a, x), mkTerm a x) terms) degree
      :: (if bool_decide (eq = "="%string)
          then [__init__ (map (λ '(a, x), mkTerm (- a) x) terms) (- degree)]
          else [])
  end.

End Inequality.

Global Instance Inequality_view : ConstraintView Inequality.t := {
  view_terms c := Ok (Inequality.terms c);
  view_degree c := Ok (Inequality.degree c);
  view_contract := Inequality.contract
}.

(** ** rules.py: the tokens of rule [p] *)

(** What [f(word)] of [ReversePolishNotation.parse] yields: one of the
    strings ["+"], ["*"], ["d"], ["s"], or an int. *)
Inductive Operator := Plus | Times | Div | Sat.

Inductive Ins :=
| Num (n : Z)
| Op (o : Operator).

Global Instance Operator_eq_dec : EqDecision Operator.
Proof. solve_decision. Defined.
Global Instance Ins_eq_dec : EqDecision Ins.
Proof. solve_decision. Defined.

Module LazyInequality.

(** An entry [(op, i)] of [operations].  The operand of ["d"] and ["*"]
    is whatever token rule [p] read after the operator. *)
Inductive operation :=
| OpS (i : nat)
| OpD (i : Ins)
| OpM (i : Ins).

(** [constraint] is only read, through its attributes [terms] and
    [degree]: the value stands for the referenced object during one
    [compute].  It is an [Inequality], as the formula and the rules [a],
    [d], [s] and [l] store them. *)
Record t := mk {
  constraint : Inequality.t;
  operations : list operation;
  degrees : list Z
}.

Definition __init__ (constraint : Inequality.t) : t := mk constraint [] [].

(** One round of the loop of [apply].  An int times a str is a str in
    Python; the round stops with TypeError there, which is what the next
    arithmetic use of that str raises. *)
Definition apply_op (degrees : list Z) (value : Z) (o : operation)
    : result Z :=
  match o with
  | OpS i =>
      match degrees !! i with
      | Some dg => Ok (Z.min dg value)
      | None => Raise IndexError
      end
  | OpD (Num i) =>
      if bool_decide (i = 0) then Raise ZeroDivisionError
      else Ok ((value + i - 1) `div` i)
  | OpD (Op _) => Raise TypeError
  | OpM (Num i) => Ok (value * i)
  | OpM (Op _) => Raise TypeError
  end.

Fixpoint apply_ops (degrees : list Z) (ops : list operation) (value : Z)
    : result Z :=
  match ops with
  | [] => Ok value
  | o :: ops => value' ← apply_op degrees value o; apply_ops degrees ops value'
  end.

(** [apply]. *)
Definition apply (self : t) (value : Z) : result Z :=
  apply_ops (degrees self) (operations self) value.

(** [applyTerm]. *)
Definition applyTerm (self : t) (value : Term) : result Term :=
  c ← apply self (coefficient value); Ok (mkTerm c (variable value)).

(** The property [terms], iterated to its end. *)
Definition terms (self : t) : result (list Term) :=
  map_result (applyTerm self) (Inequality.terms (constraint self)).

(** The property [degree]. *)
Definition degree (self : t) : result Z :=
  apply self (Inequality.degree (constraint self)).

(** [saturate]. *)
Definition saturate (self : t) : result t :=
  dg ← apply self (Inequality.degree (constraint self));
  let degrees' := degrees self ++ [dg] in
  Ok (mk (constraint self)
         (operations self ++ [OpS (length degrees' - 1)])
         degrees').

(** [divide]. *)
Definition divide (self : t) (d : Ins) : t :=
  mk (constraint self) (operations self ++ [OpD d]) (degrees self).

(** [multiply]. *)
Definition multiply (self : t) (f : Ins) : t :=
  mk (constraint self) (operations self ++ [OpM f]) (degrees self).

(** [contract]: [pass]. *)
Definition contract (self : t) : t := self.

(** [addWithFactor]. *)
Definition addWithFactor `{ConstraintView A}
    (self : t) (factor : Z) (other : A) : result Inequality.t :=
  self_degree ← degree self;
  self_terms ← terms self;
  let result := Inequality.__init__ self_terms self_degree in
  Inequality.addWithFactor result factor other.

End LazyInequality.

Global Instance LazyInequality_view : ConstraintView LazyInequality.t := {
  view_terms := LazyInequality.terms;
  view_degree := LazyInequality.degree;
  view_contract := LazyInequality.contract
}.

(** A value of the working stack of rule [p], and of what it returns. *)
Inductive Constraint :=
| Lazy (c : LazyInequality.t)
| Materialized (c : Inequality.t).

Global Instance Constraint_view : ConstraintView Constraint := {
  view_terms c :=
    match c with
    | Lazy l => LazyInequality.terms l
    | Materialized i => Ok (Inequality.terms i)
    end;
  view_degree c :=
    match c with
    | Lazy l => LazyInequality.degree l
    | Materialized i => Ok (Inequality.degree i)
    end;
  view_contract c :=
    match c with
    | Lazy l => Lazy (LazyInequality.contract l)
    | Materialized i => Materialized (Inequality.contract i)
    end
}.

(** ** rules.py: reading a proof line *)

(** ASCII white space as [str.split] and [str.strip] see it. *)
Definition is_space (c : ascii) : bool :=
  let n := nat_of_ascii c in
  ((n =? 32) || ((9 <=? n) && (n <=? 13)) || ((28 <=? n) && (n <=? 31)))%nat.

(** [line.strip().split()]: the maximal runs of characters that are not
    white space; [word] is the run being read. *)
Fixpoint split_from (word : string) (line : string) : list string :=
  match line with
  | EmptyString => if bool_decide (word = EmptyString) then [] else [word]
  | String c rest =>
      if is_space c then
        if bool_decide (word = EmptyString) then split_from EmptyString rest
        else word :: split_from EmptyString rest
      else split_from (word ++ String c EmptyString)%string rest
  end.

Definition split (line : string) : list string := split_from EmptyString line.

Definition digit (c : ascii) : option Z :=
  let n := nat_of_ascii c in
  if ((48 <=? n) && (n <=? 57))%nat then Some (Z.of_nat n - 48) else None.

(** The digits of a decimal literal, single underscores allowed between
    two digits; [after_digit] tells whether the previous character was a
    digit. *)
Fixpoint digits (value : Z) (after_digit : bool) (word : string) : option Z :=
  match word with
  | EmptyString => if after_digit then Some value else None
  | String c rest =>
      match digit c with
      | Some n => digits (10 * value + n) true rest
      | None =>
          if bool_decide (c = "_"%char) && after_digit
          then digits value false rest
          else None
      end
  end.

(** [int(word)] on a word without white space, written in ASCII: an
    optional sign and a decimal literal; ValueError otherwise. *)
Definition int (word : string) : result Z :=
  let literal s :=
    match digits 0 false s with Some v => Ok v | None => Raise ValueError end in
  match word with
  | String "+" rest => literal rest
  | String "-" rest => v ← literal rest; Ok (- v)
  | _ => literal word
  end.

(** The decorator [fallback_on_error].  [reparse] is the outcome of
    [cls.getParser(...).parse(line)], consulted only after a ValueError of
    the decorated [parse]: a ParseError found there is raised in its place
    (with its index moved), an AttributeError or a success leave the
    ValueError, anything else propagates. *)
Definition fallback_on_error {A} (reparse : result unit) (parse : result A)
    : result A :=
  match parse with
  | Raise ValueError =>
      match reparse with
      | Ok _ => Raise ValueError
      | Raise AttributeError => Raise ValueError
      | Raise e => Raise e
      end
  | outcome => outcome
  end.

(** The exceptions of [refpy] that [rules.py] derives from InvalidProof. *)
Inductive InvalidProof :=
| EqualityCheckFailed (expected got : Inequality.t)
| ContradictionCheckFailed.

(** What [compute] of a goal rule comes to: it returns (None), it raises
    an InvalidProof, or it raises something else.  The antecedents of the
    rules are [Inequality] objects, as the formula and the rules [a], [d],
    [s] and [l] leave them in the database. *)
Inductive checked :=
| Passed
| Invalid (e : InvalidProof)
| Failed (e : PyError).

Module DummyRule.

(** [compute]. *)
Definition compute : list Inequality.t := [Inequality.__init__ [] 0].

Definition numConstraints : Z := 1.

End DummyRule.

Module ConstraintEquals.

Record t := mk { constraintId : Z; constraint : Inequality.t }.

(** [compute]: [!=] is the negation of [__eq__], which contracts both of
    its operands before the exception takes them. *)
Definition compute (self : t) (antecedents : list Inequality.t) : checked :=
  match antecedents with
  | [] => Failed IndexError
  | got :: _ =>
      match Inequality.__eq__ (constraint self) got with
      | Ok true => Passed
      | Ok false =>
          Invalid (EqualityCheckFailed (Inequality.contract (constraint self))
                                       (Inequality.contract got))
      | Raise e => Failed e
      end
  end.

Definition numConstraints (self : t) : Z := 0.

Definition antecedentIDs (self : t) : list Z := [constraintId self].

End ConstraintEquals.

Module IsContradiction.

Record t := mk { constraintId : Z }.

(** [IsContradiction.parse]. *)
Definition parse (line : string) : result t :=
  let values := split line in
  if bool_decide (length values ≠ 2%nat) then Raise ValueError
  else
    match values with
    | first :: _ => n ← int first; Ok (mk n)
    | [] => Raise IndexError
    end.

(** [compute]. *)
Definition compute (self : t) (antecedents : list Inequality.t) : checked :=
  match antecedents with
  | [] => Failed IndexError
  | first :: _ =>
      if Inequality.isContradiction first then Passed
      else Invalid ContradictionCheckFailed
  end.

Definition numConstraints (self : t) : Z := 0.

Definition antecedentIDs (self : t) : list Z := [constraintId self].

End IsContradiction.

Module LinearCombination.

Record t := mk { factors : list Z; antecedentIds : list Z }.

(** The loop of [compute] over [zip(self.factors, antecedents)]; [acc]
    is the local [result]. *)
Fixpoint accumulate (acc : Inequality.t)
    (pairs : list (Z * Inequality.t)) : result Inequality.t :=
  match pairs with
  | [] => Ok acc
  | (factor, constraint) :: rest =>
      acc' ← Inequality.addWithFactor acc factor constraint;
      accumulate acc' rest
  end.

(** [compute]; [zip] stops at the end of the shorter list, and
    [Inequality()] has no terms and degree 0. *)
Definition compute (self : t) (antecedents : list Inequality.t)
    : result (list Inequality.t) :=
  acc ← accumulate (Inequality.__init__ [] 0)
                   (zip (factors self) antecedents);
  Ok [acc].

Definition antecedentIDs (self : t) : list Z := antecedentIds self.

Definition numConstraints (self : t) : Z := 1.

End LinearCombination.

Module Division.

Record t := mk { divisor : Z; factors : list Z; antecedentIds : list Z }.

(** [compute]: [super().compute(antecedents)[0]], then [divide]. *)
Definition compute (self : t) (antecedents : list Inequality.t)
    : result (list Inequality.t) :=
  combination ← LinearCombination.compute
                   (LinearCombination.mk (factors self) (antecedentIds self))
                   antecedents;
  match combination with
  | [] => Raise IndexError
  | constraint :: _ =>
      constraint ← Inequality.divide constraint (divisor self);
      Ok [constraint]
  end.

End Division.

Module Saturation.

Record t := mk { factors : list Z; antecedentIds : list Z }.

(** [compute]: [super().compute(antecedents)[0]], then [saturate]. *)
Definition compute (self : t) (antecedents : list Inequality.t)
    : result (list Inequality.t) :=
  combination ← LinearCombination.compute
                   (LinearCombination.mk (factors self) (antecedentIds self))
                   antecedents;
  match combination with
  | [] => Raise IndexError
  | constraint :: _ => Ok [Inequality.saturate constraint]
  end.

End Saturation.

Module LoadLitteralAxioms.

Record t := mk { numLiterals : Z }.

(** [range(1, n + 1)]. *)
Definition range_from_1 (n : Z) : list Z :=
  map (λ k, Z.of_nat k) (seq 1 (Z.to_nat n)).

(** [compute]. *)
Definition compute (self : t) (antecedents : list Inequality.t)
    : list Inequality.t :=
  flat_map (λ i, [Inequality.__init__ [mkTerm 1 i] 0;
                  Inequality.__init__ [mkTerm 1 (- i)] 0])
           (range_from_1 (numLiterals self)).

Definition numConstraints (self : t) : Z := 2 * numLiterals self.

Definition antecedentIDs (self : t) : list Z := [].

End LoadLitteralAxioms.

Module ReversePolishNotation.

Record t := mk { instructions : list Ins }.

(** The closure [check] of [getParser]: the new [stackSize]; the parser
    fails when it is negative. *)
Definition check (stackSize : Z) (thing : Ins) : Z :=
  match thing with
  | Num _ => stackSize + 1
  | Op Plus | Op Times | Op Div => stackSize - 1
  | Op Sat => stackSize + 0
  end.

(** The stack bookkeeping of [getParser] on the tokens it reads:
    [many()] ends at the first token [check] fails on, and [finalCheck]
    wants [stackSize] to be 1 then. *)
Fixpoint guard (stackSize : Z) (things : list Ins) : bool :=
  match things with
  | [] => bool_decide (stackSize = 1)
  | thing :: rest =>
      let stackSize := check stackSize thing in
      if bool_decide (stackSize < 0) then bool_decide (stackSize = 1)
      else guard stackSize rest
  end.

(** The round [i] of the loop of [__init__]; the index [i - 1] is the
    last position when [i] is 0. *)
Definition swap_at (instructions : list Ins) (i : nat) : list Ins :=
  match instructions !! i with
  | Some x =>
      if bool_decide (x = Op Times ∨ x = Op Div) then
        let j := match i with
                 | O => (length instructions - 1)%nat
                 | S j => j
                 end in
        match instructions !! j with
        | Some y => <[j := x]> (<[i := y]> instructions)
        | None => instructions
        end
      else instructions
  | None => instructions
  end.

(** [ReversePolishNotation(instructions)]. *)
Definition __init__ (instructions : list Ins) : t :=
  mk (fold_left swap_at (seq 0 (length instructions)) instructions).

(** [f(word)] of [parse]. *)
Definition f (word : string) : result Ins :=
  if bool_decide (word = "+"%string) then Ok (Op Plus)
  else if bool_decide (word = "*"%string) then Ok (Op Times)
  else if bool_decide (word = "d"%string) then Ok (Op Div)
  else if bool_decide (word = "s"%string) then Ok (Op Sat)
  else n ← int word; Ok (Num n).

(** The body of [parse]; [sequence[-1]] of an empty list raises. *)
Definition parse_line (line : string) : result t :=
  sequence ← map_result f (split line);
  match last sequence with
  | None => Raise IndexError
  | Some x =>
      Ok (__init__ (if bool_decide (x = Num 0) then removelast sequence
                    else sequence))
  end.

(** [parse], as decorated. *)
Definition parse (reparse : result unit) (line : string) : result t :=
  fallback_on_error reparse (parse_line line).

(** What [AntecedentIterator] yields, to its end. *)
Fixpoint antecedents_of (instructions : list Ins) : list Z :=
  match instructions with
  | [] => []
  | Num n :: rest => n :: antecedents_of rest
  | Op o :: rest =>
      if bool_decide (o = Times ∨ o = Div) then
        match rest with
        | [] => []
        | _ :: rest' => antecedents_of rest'
        end
      else antecedents_of rest
  end.

Definition antecedentIDs (self : t) : list Z :=
  antecedents_of (instructions self).

(** [stack.pop()]; the head of the list is the top of the stack. *)
Definition pop (stack : list Constraint)
    : result (Constraint * list Constraint) :=
  match stack with
  | [] => Raise IndexError
  | c :: rest => Ok (c, rest)
  end.

(** The method calls of [compute], by the class of the receiver.  A str
    operand reaching [Inequality.multiply] makes str fields in Python;
    the model raises the TypeError of their next arithmetic use. *)
Definition addWithFactor (first : Constraint) (factor : Z)
    (second : Constraint) : result Constraint :=
  match first with
  | Lazy l => Materialized <$> LazyInequality.addWithFactor l factor second
  | Materialized c => Materialized <$> Inequality.addWithFactor c factor second
  end.

Definition multiply (constraint : Constraint) (factor : Ins)
    : result Constraint :=
  match constraint, factor with
  | Lazy l, _ => Ok (Lazy (LazyInequality.multiply l factor))
  | Materialized c, Num f => Ok (Materialized (Inequality.multiply c f))
  | Materialized _, Op _ => Raise TypeError
  end.

Definition divide (constraint : Constraint) (divisor : Ins)
    : result Constraint :=
  match constraint, divisor with
  | Lazy l, _ => Ok (Lazy (LazyInequality.divide l divisor))
  | Materialized c, Num d => Materialized <$> Inequality.divide c d
  | Materialized _, Op _ => Raise TypeError
  end.

Definition saturate (constraint : Constraint) : result Constraint :=
  match constraint with
  | Lazy l => Lazy <$> LazyInequality.saturate l
  | Materialized c => Ok (Materialized (Inequality.saturate c))
  end.

(** The loop of [compute]: [it] is what is left of the instructions,
    [antecedentIt] what is left of the antecedents. *)
Fixpoint run (it : list Ins) (stack : list Constraint)
    (antecedentIt : list Inequality.t) : result (list Constraint) :=
  match it with
  | [] => Ok stack
  | Num _ :: it =>
      match antecedentIt with
      | [] => Raise StopIteration
      | antecedent :: antecedentIt =>
          run it (Lazy (LazyInequality.__init__ antecedent) :: stack)
              antecedentIt
      end
  | Op Plus :: it =>
      '(second, stack) ← pop stack;
      '(first, stack) ← pop stack;
      sum ← addWithFactor first 1 second;
      run it (sum :: stack) antecedentIt
  | Op Times :: it =>
      '(constraint, stack) ← pop stack;
      match it with
      | [] => Raise StopIteration
      | factor :: it =>
          product ← multiply constraint factor;
          run it (product :: stack) antecedentIt
      end
  | Op Div :: it =>
      '(constraint, stack) ← pop stack;
      match it with
      | [] => Raise StopIteration
      | divisor :: it =>
          quotient ← divide constraint divisor;
          run it (quotient :: stack) antecedentIt
      end
  | Op Sat :: it =>
      '(constraint, stack) ← pop stack;
      saturated ← saturate constraint;
      run it (saturated :: stack) antecedentIt
  end.

(** [compute]. *)
Definition compute (self : t) (antecedents : list Inequality.t)
    : result (list Constraint) :=
  stack ← run (instructions self) [] antecedents;
  match stack with
  | [c] => Ok [view_contract c]
  | _ => Raise AssertionError
  end.

Definition numConstraints (self : t) : Z := 1.

End ReversePolishNotation.

Module LoadFormula.

Record t := mk { formula : list Inequality.t }.

(** [LoadFormula(formula, numVars)]: [numVars] is not kept. *)
Definition __init__ (formula : list Inequality.t) (numVars : option Z) : t :=
  mk formula.

(** [LoadFormula.parse]. *)
Definition parse (line : string) (formula : list Inequality.t) : result t :=
  let values := split line in
  match values with
  | [first; _] => n ← int first; Ok (__init__ formula (Some n))
  | [_] => Ok (__init__ formula None)
  | _ => Raise ValueError
  end.

(** The closure [f] of [getParser]: whether the parser goes on. *)
Definition f (formula : list Inequality.t) (numVars : option Z) : bool :=
  match numVars with
  | Some n => bool_decide (Z.of_nat (length formula) = n)
  | None => true
  end.

(** [compute]. *)
Definition compute (self : t) (antecedents : list Inequality.t)
    : list Inequality.t :=
  formula self.

Definition numConstraints (self : t) : Z := Z.of_nat (length (formula self)).

Definition antecedentIDs (self : t) : list Z := [].

End LoadFormula.

Module LoadFormulaWrapper.

Record t := mk { formula : list Inequality.t }.

(** [parse], as decorated. *)
Definition parse (reparse : result unit) (self : t) (line : string)
    : result LoadFormula.t :=
  fallback_on_error reparse (LoadFormula.parse line (formula self)).

End LoadFormulaWrapper.

(** * The vocabulary of the properties *)

(** ** The normal form *)

(** No coefficient is negative. *)
Definition nonneg (ts : list Term) : Prop := Forall (λ x, 0 ≤ coefficient x) ts.

(** No absolute variable index occurs in two terms. *)
Definition distinct (ts : list Term) : Prop := NoDup (map key ts).

(** The dict of a list of terms with distinct variables: every term under
    its variable, in the order of the list. *)
Fixpoint index_from (i : nat) (ts : list Term) : Inequality.Dict :=
  match ts with
  | [] => []
  | x :: r => (key x, i) :: index_from (S i) r
  end.

(** The cached dict, when there is one, is the dict of the terms. *)
Definition dict_ok (c : Inequality.t) : Prop :=
  match Inequality._dict c with
  | Some d => d = index_from 0 (Inequality.terms c)
  | None => True
  end.

(** The normal form of the data model. *)
Definition normal (c : Inequality.t) : Prop :=
  nonneg (Inequality.terms c) ∧ distinct (Inequality.terms c).

(** The normal form, with the dict that belongs to it. *)
Definition wf (c : Inequality.t) : Prop := normal c ∧ dict_ok c.

(** A term that [contract] keeps. *)
Definition nz (x : Term) : Prop := coefficient x ≠ 0.

(** [contract] leaves no term of coefficient 0: it has a dict to work
    from, or there is no such term. *)
Definition zero_ok (c : Inequality.t) : Prop :=
  Inequality._dict c = None → Forall nz (Inequality.terms c).

(** The order [sorted] sorts by. *)
Definition key_le (x y : Term) : Prop := key x ≤ key y.

(** ** The negation rewrite *)

(** The negation rewrite as the data model words it: a term [(-c, v)] of
    negative coefficient becomes [(c, -v)], any other term stays. *)
Definition rewritten (x : Term) : Term :=
  if bool_decide (coefficient x < 0)
  then mkTerm (- coefficient x) (- variable x)
  else x.

(** What the rewrite of the terms adds to the degree: [c * ub(|v|)] for
    every term [(-c, v)] of negative coefficient. *)
Fixpoint raised (ts : list Term) : Z :=
  match ts with
  | [] => 0
  | x :: rest =>
      (if bool_decide (coefficient x < 0)
       then - coefficient x * variableUpperBounds (Z.abs (variable x))
       else 0) + raised rest
  end.

(** ** What a constraint says *)

(** The coefficient of the variable itself in a term: [c] for [c x],
    [-c] for [c ~x] (which is [c - c x]). *)
Definition signed (x : Term) : Z := copysign (coefficient x) (variable x).

(** What a negated literal adds to the degree. *)
Definition negpart (x : Term) : Z := Z.max 0 (- signed x).

(** The coefficient of the variable [k] in a list of terms. *)
Fixpoint sval (ts : list Term) (k : Z) : Z :=
  match ts with
  | [] => 0
  | x :: r => (if bool_decide (key x = k) then signed x else 0) + sval r k
  end.

(** What the negated literals of a list of terms add to the degree. *)
Fixpoint negsum (ts : list Term) : Z :=
  match ts with
  | [] => 0
  | x :: r => negpart x + negsum r
  end.

(** The degree once every negated literal is written out. *)
Definition cdeg (ts : list Term) (degree : Z) : Z := degree - negsum ts.

(** The term [Inequality.merge] writes over [my], and what it takes from
    the degree. *)
Definition merged (my other : Term) : Term :=
  let s := signed my + signed other in
  mkTerm (Z.abs s) (copysign (Z.abs (variable my)) s).

Definition cancellation (my other : Term) : Z :=
  Z.max 0 (Z.max (coefficient my) (coefficient other)
           - Z.abs (signed my + signed other)).

(** Arithmetic on signs and absolute values, by cases. *)
Ltac arith :=
  unfold merged, cancellation, negpart in *;
  unfold signed, key in *;
  unfold copysign, variableUpperBounds in *;
  simpl in *; repeat case_bool_decide; lia.

(** ** Sums *)

(** What [addWithFactor] makes of [self] once the degree [d] and the terms
    [ts] of the other operand are read. *)
Definition add_terms (self : Inequality.t) (factor : Z) (ts : list Term)
    (d : Z) : Inequality.t :=
  fold_left Inequality.merge
    (map (λ x, mkTerm (factor * coefficient x) (variable x)) ts)
    (Inequality.mk (Inequality.degree self + factor * d)
                   (Inequality.terms self) (Inequality._dict self)).

(** The constraints the operations of [Inequality] produce, from terms
    that name every variable once. *)
Inductive produced : Inequality.t → Prop :=
| produced_init ts d :
    distinct ts → produced (Inequality.__init__ ts d)
| produced_add self factor other sum :
    produced self → produced other → 1 ≤ factor →
    Inequality.addWithFactor self factor other = Ok sum →
    produced sum
| produced_saturate self :
    produced self → 0 ≤ Inequality.degree self →
    produced (Inequality.saturate self)
| produced_divide self d quotient :
    produced self → 1 ≤ d →
    Inequality.divide self d = Ok quotient →
    produced quotient
| produced_multiply self f :
    produced self → 1 ≤ f → produced (Inequality.multiply self f)
| produced_contract self :
    produced self → produced (Inequality.contract self).

(** Distinct variables in a list of terms written out. *)
Ltac distinct_keys :=
  unfold distinct, key; simpl;
  repeat (apply NoDup_cons; split;
          [rewrite ?elem_of_cons, elem_of_nil; lia|]);
  apply NoDup_nil_2.

(** ** Sums in reverse Polish notation *)

(** A sequence of ids and [+] that is a sum in reverse Polish notation:
    every [+] finds two operands on a stack of [depth] elements, and one
    element is left at the end. *)
Fixpoint balanced (depth : nat) (sequence : list Ins) : bool :=
  match sequence with
  | [] => bool_decide (depth = 1%nat)
  | Num _ :: rest => balanced (S depth) rest
  | Op Plus :: rest =>
      match depth with
      | S (S d) => balanced (S d) rest
      | _ => false
      end
  | Op _ :: _ => false
  end.

(** A constraint without terms, [0 >= degree]. *)
Definition no_terms (c : Inequality.t) : Prop := Inequality.terms c = [].

(** What the antecedents of a sum in the order of the line must be like
    for [contract] to clear the result of terms of coefficient 0: the first
    has none, or one of the others has a term. *)
Definition clears (cs : list Inequality.t) : Prop :=
  match cs with
  | [] => True
  | first :: others =>
      Forall nz (Inequality.terms first) ∨ Exists (λ c, ¬ no_terms c) others
  end.

(** The coefficient of the variable [k] in the sum of the constraints
    [cs], and the degree of that sum with every negated literal written
    out. *)
Fixpoint total_sval (cs : list Inequality.t) (k : Z) : Z :=
  match cs with
  | [] => 0
  | c :: r => sval (Inequality.terms c) k + total_sval r k
  end.

Fixpoint total_cdeg (cs : list Inequality.t) : Z :=
  match cs with
  | [] => 0
  | c :: r => cdeg (Inequality.terms c) (Inequality.degree c) + total_cdeg r
  end.

(** The terms [ts] and the degree [d] are the sum of the constraints [cs];
    [built] tells whether a dict goes with them. *)
Definition sum_of (ts : list Term) (d : Z) (built : Prop)
    (cs : list Inequality.t) : Prop :=
  nonneg ts ∧ distinct ts
  ∧ (∀ k, sval ts k = total_sval cs k)
  ∧ cdeg ts d = total_cdeg cs
  ∧ (¬ built → ∃ c rest, cs = c :: rest ∧ ts = Inequality.terms c
                         ∧ Forall no_terms rest)
  ∧ (ts = [] → Forall no_terms cs).

(** An element of the stack of [compute] and the antecedents it sums. *)
Inductive item_of : Constraint → list Inequality.t → Prop :=
| item_lazy c :
    normal c → item_of (Lazy (LazyInequality.__init__ c)) [c]
| item_sum i cs :
    wf i →
    sum_of (Inequality.terms i) (Inequality.degree i)
           (Inequality._dict i ≠ None) cs →
    item_of (Materialized i) cs.

(** The stack and the antecedents read so far, the top of the stack
    summing the last of them. *)
Inductive stack_of : list Constraint → list Inequality.t → Prop :=
| stack_empty : stack_of [] []
| stack_push e cs stack seen :
    item_of e cs → stack_of stack seen → stack_of (e :: stack) (seen ++ cs).

(** A database of two constraints, [2 x1 + 3 ~x2 >= 3] under id 1 and
    [2 ~x1 + 1 x2 + 1 x5 >= 1] under every other id. *)
Definition example_db (id : Z) : Inequality.t :=
  if bool_decide (id = 1)
  then Inequality.__init__ [mkTerm 2 1; mkTerm 3 (-2)] 3
  else Inequality.__init__ [mkTerm 2 (-1); mkTerm 1 2; mkTerm 1 5] 1.

(** ** What a constraint means *)

(** An assignment gives every variable a value from 0 to its upper
    bound. *)
Definition assignment (x : Z → Z) : Prop :=
  ∀ k, 0 ≤ x k ≤ variableUpperBounds k.

(** The value of the literal [v]: that of the variable [|v|], and for a
    negated literal the upper bound minus it. *)
Definition literal (x : Z → Z) (v : Z) : Z :=
  if bool_decide (0 ≤ v) then x (Z.abs v)
  else variableUpperBounds (Z.abs v) - x (Z.abs v).

(** The sum of the terms under [x]. *)
Fixpoint value (x : Z → Z) (ts : list Term) : Z :=
  match ts with
  | [] => 0
  | t :: r => coefficient t * literal x (variable t) + value x r
  end.

(** By how much the sum of the terms exceeds the degree under [x]. *)
Definition margin (x : Z → Z) (c : Inequality.t) : Z :=
  value x (Inequality.terms c) - Inequality.degree c.

(** The sum of the terms is greater or equal the degree. *)
Definition satisfies (x : Z → Z) (c : Inequality.t) : Prop :=
  Inequality.degree c ≤ value x (Inequality.terms c).

(** The part of a sum of terms that depends on [x], every negated literal
    written out. *)
Fixpoint lin (x : Z → Z) (ts : list Term) : Z :=
  match ts with
  | [] => 0
  | t :: r => signed t * x (key t) + lin x r
  end.

(** The assignment under which every literal of [ts] on a variable of its
    own is 1. *)
Definition all_true (ts : list Term) (k : Z) : Z :=
  if bool_decide (k ∈ map variable ts) then 1 else 0.

(** No term is on the variable 0, which has no negation. *)
Definition proper (ts : list Term) : Prop := Forall (λ t, variable t ≠ 0) ts.

(** The margins of the constraints of [pairs], each times its factor. *)
Fixpoint weighted (x : Z → Z) (pairs : list (Z * Inequality.t)) : Z :=
  match pairs with
  | [] => 0
  | (factor, c) :: r => factor * margin x c + weighted x r
  end.

(** ** Operations postponed *)

(** A call of [multiply], [divide] or [saturate] with an int operand. *)
Inductive call :=
| CallMultiply (f : Z)
| CallDivide (d : Z)
| CallSaturate.

(** The call on an [Inequality] and on a [LazyInequality]. *)
Definition call_now (c : Inequality.t) (o : call) : result Inequality.t :=
  match o with
  | CallMultiply f => Ok (Inequality.multiply c f)
  | CallDivide d => Inequality.divide c d
  | CallSaturate => Ok (Inequality.saturate c)
  end.

Definition call_later (l : LazyInequality.t) (o : call)
    : result LazyInequality.t :=
  match o with
  | CallMultiply f => Ok (LazyInequality.multiply l (Num f))
  | CallDivide d => Ok (LazyInequality.divide l (Num d))
  | CallSaturate => LazyInequality.saturate l
  end.

(** One call after the other. *)
Fixpoint calls {A} (make : A → call → result A) (a : A) (os : list call)
    : result A :=
  match os with
  | [] => Ok a
  | o :: os => a' ← make a o; calls make a' os
  end.

(** Every saturation recorded has its degree recorded. *)
Definition recorded (l : LazyInequality.t) : Prop :=
  Forall (λ o, match o with
               | LazyInequality.OpS i =>
                   (i < length (LazyInequality.degrees l))%nat
               | _ => True
               end)
         (LazyInequality.operations l).

(** What is read of [l] is what [c] holds. *)
Definition reads (l : LazyInequality.t) (c : Inequality.t) : Prop :=
  recorded l
  ∧ LazyInequality.terms l = Ok (Inequality.terms c)
  ∧ LazyInequality.degree l = Ok (Inequality.degree c).

(** ** Rule [p] *)



(** A line of white space. *)
Fixpoint blank (line : string) : bool :=
  match line with
  | EmptyString => true
  | String c rest => is_space c && blank rest
  end.

(** ** The operands of [*] and [d] *)

(** The token is [*] or [d]. *)
Definition scalar (x : Ins) : bool := bool_decide (x = Op Times ∨ x = Op Div).

(** Every [*] and [d] follows a token that is neither; [previous] tells
    whether the token before the list is one. *)
Fixpoint operands_first (previous : bool) (tokens : list Ins) : bool :=
  match tokens with
  | [] => true
  | x :: rest =>
      if scalar x then previous && operands_first false rest
      else operands_first true rest
  end.

(** Every [*] and [d] in front of the token it followed. *)
Fixpoint swapped (tokens : list Ins) : list Ins :=
  match tokens with
  | [] => []
  | x :: rest =>
      match rest with
      | y :: rest' =>
          if scalar y then y :: x :: swapped rest' else x :: swapped rest
      | [] => [x]
      end
  end.

(** ** The ids of a line of rule [p] *)

(** The ints of the tokens that are not in front of a [*] or a [d]. *)
Fixpoint ids_of (tokens : list Ins) : list Z :=
  match tokens with
  | [] => []
  | x :: rest =>
      match rest with
      | y :: _ =>
          if scalar y then ids_of rest
          else match x with Num k => k :: ids_of rest | Op _ => ids_of rest end
      | [] => match x with Num k => [k] | Op _ => [] end
      end
  end.

(** The size of the stack after the instructions, from [depth] elements:
    every operator finds its operands on the stack, [*] and [d] an int
    after them, and [d] not the int 0. *)
Fixpoint stack_after (depth : nat) (it : list Ins) : option nat :=
  match it with
  | [] => Some depth
  | Num _ :: rest => stack_after (S depth) rest
  | Op Plus :: rest =>
      match depth with
      | S (S d) => stack_after (S d) rest
      | _ => None
      end
  | Op Times :: Num _ :: rest =>
      match depth with
      | S d => stack_after (S d) rest
      | O => None
      end
  | Op Div :: Num k :: rest =>
      if bool_decide (k = 0) then None
      else match depth with
           | S d => stack_after (S d) rest
           | O => None
           end
  | Op Sat :: rest =>
      match depth with
      | S d => stack_after (S d) rest
      | O => None
      end
  | _ => None
  end.

(** An element of the stack whose terms and degree can be read. *)
Definition readable (c : Constraint) : Prop :=
  match c with
  | Lazy l => ∃ e, reads l e
  | Materialized _ => True
  end.

(** * Properties *)

(** ** Equality is reflexive *)

Lemma eq_same (c : Inequality.t) : Inequality.__eq__ c c = Ok true.
Proof.
  unfold Inequality.__eq__; simpl.
  rewrite bool_decide_eq_true_2 by reflexivity.
  simpl. by rewrite bool_decide_eq_true_2.
Qed.

Lemma eq_of_eq (a b : Inequality.t) : a = b → Inequality.__eq__ a b = Ok true.
Proof. intros ->. apply eq_same. Qed.

(** ** Saturation *)

(** What [saturate] leaves in the terms: the smaller of the coefficient and
    the degree itself. *)
Lemma saturate_terms (self : Inequality.t) :
  Inequality.terms (Inequality.saturate self)
  = map (λ x, mkTerm (Z.min (coefficient x) (Inequality.degree self))
                     (variable x))
        (Inequality.terms self).
Proof. unfold Inequality.saturate, Inequality.dict. by destruct (Inequality._dict self). Qed.

Lemma saturate_degree (self : Inequality.t) :
  Inequality.degree (Inequality.saturate self) = Inequality.degree self.
Proof. unfold Inequality.saturate, Inequality.dict. by destruct (Inequality._dict self). Qed.

(** C1: on the constraint [3 x1 >= -2] both [Inequality.saturate] and a
    [LazyInequality] with a recorded saturation leave the coefficient -2,
    the degree, where [min(coefficient, max(0, degree))] is 0: the
    coefficient is neither 0 nor non-negative. *)
Theorem saturate_below_zero :
  let C := Inequality.__init__ [mkTerm 3 1] (-2) in
  Inequality.terms C = [mkTerm 3 1]
  ∧ Inequality.degree C = -2
  ∧ Inequality.terms (Inequality.saturate C) = [mkTerm (-2) 1]
  ∧ (lazy ← LazyInequality.saturate (LazyInequality.__init__ C);
     LazyInequality.terms lazy) = Ok [mkTerm (-2) 1]
  ∧ Z.min 3 (Z.max 0 (Inequality.degree C)) = 0.
Proof. by vm_compute. Qed.

(** ** Multiplication and division *)

Lemma ceil_div_mul (x d : Z) : 1 ≤ d → (x * d + d - 1) `div` d = x.
Proof.
  intros Hd.
  replace (x * d + d - 1) with (x * d + (d - 1)) by lia.
  rewrite Z.div_add_l by lia.
  rewrite Z.div_small; lia.
Qed.

Lemma divide_multiply (C : Inequality.t) (d : Z) :
  1 ≤ d → Inequality.divide (Inequality.multiply C d) d = Ok C.
Proof.
  intros Hd. unfold Inequality.divide.
  rewrite bool_decide_eq_false_2 by lia.
  destruct C as [deg ts dict]; simpl. f_equal. f_equal.
  - by apply ceil_div_mul.
  - rewrite map_map. rewrite <- (map_id ts) at 2.
    apply map_ext. intros [c v]; simpl. f_equal. by apply ceil_div_mul.
Qed.

(** C8: for a constraint with non-negative coefficients and [d >= 1],
    [C.multiply(d).divide(d)] raises nothing, gives back the degree and
    every coefficient of [C], and compares equal to [C]. *)
Theorem multiply_divide_eq (C : Inequality.t) (d : Z) :
  Forall (λ x, 0 ≤ coefficient x) (Inequality.terms C) →
  1 ≤ d →
  ∃ C', Inequality.divide (Inequality.multiply C d) d = Ok C'
        ∧ Inequality.degree C' = Inequality.degree C
        ∧ Inequality.terms C' = Inequality.terms C
        ∧ Inequality.__eq__ C' C = Ok true.
Proof.
  intros _ Hd. exists C. rewrite divide_multiply by done.
  split_and!; try done. apply eq_same.
Qed.

Lemma multiply_divide_eq_witness :
  ∃ C', Inequality.divide
          (Inequality.multiply (Inequality.__init__ [mkTerm 2 1; mkTerm 3 (-2)] 4) 3) 3
        = Ok C'
        ∧ Inequality.degree C' = 4
        ∧ Inequality.terms C' = [mkTerm 2 1; mkTerm 3 (-2)]
        ∧ Inequality.__eq__ C' (Inequality.__init__ [mkTerm 2 1; mkTerm 3 (-2)] 4)
          = Ok true.
Proof.
  apply (multiply_divide_eq (Inequality.__init__ [mkTerm 2 1; mkTerm 3 (-2)] 4) 3).
  - simpl. repeat constructor; simpl; lia.
  - lia.
Defined.

(** ** Construction *)

Lemma normalize_nonneg (ts : list Term) (deg : Z) :
  Forall (λ x, 0 ≤ coefficient x) ts → Inequality.normalize ts deg = (ts, deg).
Proof.
  intros H. revert deg. induction H as [|x ts Hx _ IH]; intros deg; simpl; [done|].
  rewrite bool_decide_eq_false_2 by lia. by rewrite IH.
Qed.

Lemma init_nonneg (ts : list Term) (deg : Z) :
  Forall (λ x, 0 ≤ coefficient x) ts →
  Inequality.__init__ ts deg = Inequality.mk deg ts None.
Proof. intros H. unfold Inequality.__init__. by rewrite normalize_nonneg. Qed.

(** C9: [Inequality(terms, degree)] stores every term it is handed, in its
    place, with the negation rewrite applied to those of negative
    coefficient and nothing else changed, and adds to the degree what the
    rewrites ask for.  For [c >= 0] and a literal [v] that is not 0 the
    constraints built from [(-c, v)] with degree [d] and from [(c, -v)]
    with degree [d + c * ub(|v|)] have the same degree and the same terms
    of coefficient other than 0, and compare equal once [contract] has a
    dict to work from; as built, [__eq__] finds them equal when [c] is not
    0 and different when [c = 0], [contract] having skipped both. *)
Theorem negation_round_trip (ts : list Term) (deg c v d : Z) :
  0 ≤ c → v ≠ 0 →
  let by_coefficient := Inequality.__init__ [mkTerm (- c) v] d in
  let by_literal :=
    Inequality.__init__ [mkTerm c (- v)]
                        (d + c * variableUpperBounds (Z.abs v)) in
  Inequality.__init__ ts deg
  = Inequality.mk (deg + raised ts) (map rewritten ts) None
  ∧ Inequality.degree by_coefficient = Inequality.degree by_literal
  ∧ filter nz (Inequality.terms by_coefficient)
    = filter nz (Inequality.terms by_literal)
  ∧ Inequality.__eq__ (Inequality.dict by_coefficient).2
                      (Inequality.dict by_literal).2 = Ok true
  ∧ Inequality.__eq__ by_coefficient by_literal = Ok (bool_decide (c ≠ 0)).
Proof.
  intros Hc Hv. cbv zeta. split.
  { unfold Inequality.__init__.
    assert (∀ deg, Inequality.normalize ts deg
                   = (map rewritten ts, deg + raised ts)) as ->.
    { clear. induction ts as [|x rest IH]; intros deg; simpl.
      - f_equal. lia.
      - unfold rewritten at 1. case_bool_decide.
        + rewrite IH. f_equal; [f_equal; f_equal; lia|].
          unfold variableUpperBounds. lia.
        + rewrite IH. f_equal; lia. }
    done. }
  destruct (decide (c = 0)) as [->|Hnz].
  - rewrite (bool_decide_eq_false_2 (0 ≠ 0)) by lia.
    unfold Inequality.__init__, Inequality.__eq__, variableUpperBounds; simpl.
    split_and!; [lia | done | |].
    + rewrite bool_decide_eq_true_2 by lia. done.
    + rewrite bool_decide_eq_true_2 by lia. simpl.
      rewrite bool_decide_eq_false_2; [done|]. intros [= H]. lia.
  - rewrite (bool_decide_eq_true_2 (c ≠ 0)) by done.
    assert (Inequality.__init__ [mkTerm (- c) v] d
            = Inequality.__init__ [mkTerm c (- v)]
                (d + c * variableUpperBounds (Z.abs v))) as ->.
    { unfold Inequality.__init__, variableUpperBounds; simpl.
      rewrite bool_decide_eq_true_2 by lia.
      rewrite bool_decide_eq_false_2 by lia.
      unfold variableUpperBounds.
      f_equal; [lia|]. f_equal. f_equal. lia. }
    split_and!; try done; apply eq_same.
Qed.

Lemma negation_round_trip_witness :
  let by_coefficient := Inequality.__init__ [mkTerm (- 0) 1] 0 in
  let by_literal :=
    Inequality.__init__ [mkTerm 0 (- 1)]
                        (0 + 0 * variableUpperBounds (Z.abs 1)) in
  Inequality.__init__
    [mkTerm (-2) 1; mkTerm 3 2; mkTerm (-1) (-3); mkTerm 0 4] 5
  = Inequality.mk 8 [mkTerm 2 (-1); mkTerm 3 2; mkTerm 1 3; mkTerm 0 4] None
  ∧ Inequality.degree by_coefficient = Inequality.degree by_literal
  ∧ filter nz (Inequality.terms by_coefficient)
    = filter nz (Inequality.terms by_literal)
  ∧ Inequality.__eq__ (Inequality.dict by_coefficient).2
                      (Inequality.dict by_literal).2 = Ok true
  ∧ Inequality.__eq__ by_coefficient by_literal = Ok false.
Proof.
  apply (negation_round_trip
           [mkTerm (-2) 1; mkTerm 3 2; mkTerm (-1) (-3); mkTerm 0 4] 5 0 1 0);
    lia.
Defined.

(** ** Reading proof lines *)

(** C5: the line ["3 7"] of rule [c] is read as the rule on constraint 3;
    [IsContradiction.parse] counts the words and converts the first, and
    never looks at the second. *)
Theorem contradiction_line_unterminated :
  IsContradiction.parse "3 7" = Ok (IsContradiction.mk 3)
  ∧ IsContradiction.parse "3 0" = Ok (IsContradiction.mk 3).
Proof. by vm_compute. Qed.

(** C3: whatever the re-parse would say, [parse] accepts the lines ["1 +"]
    (a pop from the empty stack) and ["1 2"] (two elements left); on the
    antecedents of their ids [compute] raises IndexError at the second pop
    of [+] for the first line, and fails its assertion for the second.
    The stack bookkeeping of [getParser] refuses the tokens of both. *)
Theorem imbalance_reaches_compute (reparse : result unit)
    (first second : Inequality.t) :
  (∃ rule, ReversePolishNotation.parse reparse "1 +" = Ok rule
     ∧ ReversePolishNotation.antecedentIDs rule = [1]
     ∧ ReversePolishNotation.compute rule [first] = Raise IndexError)
  ∧ (∃ rule, ReversePolishNotation.parse reparse "1 2" = Ok rule
     ∧ ReversePolishNotation.antecedentIDs rule = [1; 2]
     ∧ ReversePolishNotation.compute rule [first; second]
       = Raise AssertionError)
  ∧ ReversePolishNotation.guard 0 [Num 1; Op Plus] = false
  ∧ ReversePolishNotation.guard 0 [Num 1; Num 2] = false.
Proof.
  split_and!; [| |done|done].
  - exists (ReversePolishNotation.mk [Num 1; Op Plus]). by split_and!.
  - exists (ReversePolishNotation.mk [Num 1; Num 2]). by split_and!.
Qed.

(** C4: [parse] accepts the line ["1 0 d"]; [compute] hands the operand 0
    to [divide], which records it, and reading the degree or a coefficient
    of the constraint returned raises ZeroDivisionError.  On a constraint
    made by [+] the division by 0 is raised inside [compute]. *)
Theorem zero_divisor_accepted (reparse : result unit) :
  let C := Inequality.__init__ [mkTerm 3 1] 2 in
  (∃ rule lazy,
     ReversePolishNotation.parse reparse "1 0 d" = Ok rule
     ∧ ReversePolishNotation.instructions rule = [Num 1; Op Div; Num 0]
     ∧ ReversePolishNotation.compute rule [C] = Ok [Lazy lazy]
     ∧ LazyInequality.operations lazy = [LazyInequality.OpD (Num 0)]
     ∧ LazyInequality.degree lazy = Raise ZeroDivisionError
     ∧ LazyInequality.terms lazy = Raise ZeroDivisionError)
  ∧ (∃ rule,
     ReversePolishNotation.parse reparse "1 2 + 0 d" = Ok rule
     ∧ ReversePolishNotation.compute rule [C; C] = Raise ZeroDivisionError).
Proof.
  intros C. split.
  - eexists _, _. by split_and!.
  - eexists. by split_and!.
Qed.

(** C10: an [f] line of two words whose first is an integer [N] is
    accepted for every formula, whatever the re-parse would say; the rule
    built is the one built without a count, and [compute] returns the
    formula as it is. *)
Theorem load_formula_count_ignored (reparse : result unit)
    (formula antecedents : list Inequality.t) (line first second : string)
    (N : Z) :
  split line = [first; second] →
  int first = Ok N →
  ∃ rule,
    LoadFormulaWrapper.parse reparse (LoadFormulaWrapper.mk formula) line
    = Ok rule
    ∧ rule = LoadFormula.__init__ formula None
    ∧ LoadFormula.compute rule antecedents = formula.
Proof.
  intros Hsplit Hint. exists (LoadFormula.mk formula).
  unfold LoadFormulaWrapper.parse, LoadFormula.parse; simpl.
  by rewrite Hsplit, Hint.
Qed.

Lemma load_formula_count_ignored_witness :
  ∃ rule,
    LoadFormulaWrapper.parse (Raise ParseError)
      (LoadFormulaWrapper.mk [Inequality.__init__ [mkTerm 1 1] 1]) "7 0"
    = Ok rule
    ∧ rule = LoadFormula.__init__ [Inequality.__init__ [mkTerm 1 1] 1] None
    ∧ LoadFormula.compute rule [] = [Inequality.__init__ [mkTerm 1 1] 1].
Proof.
  apply (load_formula_count_ignored _ _ _ "7 0" "7" "0" 7); reflexivity.
Defined.

(** ** The cached dict *)

Section Dict.
Import Inequality.

Lemma index_from_keys (i : nat) (ts : list Term) :
  map fst (index_from i ts) = map key ts.
Proof. revert i. induction ts as [|x r IH]; intros i; simpl; [done|]. by rewrite IH. Qed.

Lemma index_from_app (i : nat) (ts us : list Term) :
  index_from i (ts ++ us) = index_from i ts ++ index_from (i + length ts) us.
Proof.
  revert i. induction ts as [|x r IH]; intros i; simpl.
  - by rewrite Nat.add_0_r.
  - rewrite IH. do 3 f_equal. lia.
Qed.

Lemma dict_set_fresh (k : Z) (i : nat) (d : Dict) :
  k ∉ map fst d → dict_set k i d = d ++ [(k, i)].
Proof.
  induction d as [|[k' j] r IH]; simpl; [done|].
  intros Hk. rewrite not_elem_of_cons in Hk. destruct Hk as [Hne Hk].
  rewrite bool_decide_eq_false_2 by done. by rewrite IH.
Qed.

Lemma dict_get_None (k : Z) (d : Dict) :
  dict_get k d = None ↔ k ∉ map fst d.
Proof.
  induction d as [|[k' j] r IH]; simpl.
  - split; [intros _; apply not_elem_of_nil | done].
  - rewrite not_elem_of_cons. case_bool_decide; [|tauto].
    split; [done | intros []; done].
Qed.

Lemma dict_get_index (k : Z) (i j : nat) (ts : list Term) :
  dict_get k (index_from i ts) = Some j →
  ∃ x, ts !! (j - i)%nat = Some x ∧ key x = k ∧ (i ≤ j)%nat.
Proof.
  revert i. induction ts as [|x r IH]; intros i; simpl; [done|].
  case_bool_decide as Hk.
  - intros [= <-]. exists x. rewrite Nat.sub_diag. by split_and!.
  - intros Hget. destruct (IH _ Hget) as (y & Hy & Hky & Hle).
    exists y. replace (j - i)%nat with (S (j - S i)) by lia.
    split_and!; [done | done | lia].
Qed.

Lemma dict_fill_distinct (d : Dict) (i : nat) (ts : list Term) :
  NoDup (map fst d ++ map key ts) →
  dict_fill d i ts = d ++ index_from i ts.
Proof.
  revert d i. induction ts as [|x r IH]; intros d i; simpl.
  - intros _. by rewrite app_nil_r.
  - intros Hnd.
    assert (key x ∉ map fst d) as Hfresh.
    { apply NoDup_app in Hnd as (_ & Hdisj & _).
      intros Hin. apply (Hdisj _ Hin). by left. }
    rewrite dict_set_fresh by done.
    rewrite IH.
    + by rewrite <- app_assoc.
    + rewrite map_app; simpl. by rewrite <- app_assoc.
Qed.

Lemma dict_fill_index (ts : list Term) :
  distinct ts → dict_fill [] 0 ts = index_from 0 ts.
Proof. intros H. by rewrite dict_fill_distinct. Qed.

Lemma index_from_insert (i j : nat) (ts : list Term) (x y : Term) :
  ts !! j = Some x → key y = key x →
  index_from i (<[j := y]> ts) = index_from i ts.
Proof.
  revert i j. induction ts as [|z r IH]; intros i j; [done|].
  destruct j as [|j]; simpl.
  - intros [= ->] ->. done.
  - intros Hx Hk. f_equal. by apply IH.
Qed.

Lemma map_key_insert (j : nat) (ts : list Term) (x y : Term) :
  ts !! j = Some x → key y = key x →
  map key (<[j := y]> ts) = map key ts.
Proof.
  revert j. induction ts as [|z r IH]; intros j; [done|].
  destruct j as [|j]; simpl.
  - intros [= ->] ->. done.
  - intros Hx Hk. f_equal. by apply IH.
Qed.

Lemma omap_index_from (pre ts : list Term) :
  omap (λ '(_, i), (pre ++ ts) !! i) (index_from (length pre) ts) = ts.
Proof.
  revert pre. induction ts as [|x r IH]; intros pre; simpl; [done|].
  rewrite list_lookup_middle by done. f_equal.
  specialize (IH (pre ++ [x])).
  rewrite <- app_assoc in IH; simpl in IH.
  rewrite length_app in IH; simpl in IH.
  by rewrite Nat.add_1_r in IH.
Qed.

(** With the dict that belongs to the terms, [contract] drops the terms
    of coefficient 0 and nothing else. *)
Lemma contract_terms (c : t) :
  dict_ok c →
  terms (contract c)
  = match _dict c with
    | Some _ => filter (λ x, coefficient x ≠ 0) (terms c)
    | None => terms c
    end.
Proof.
  unfold dict_ok, contract. destruct (_dict c) as [d|]; [|done].
  intros ->; simpl. f_equal. apply (omap_index_from [] (terms c)).
Qed.

Lemma contract_degree (c : t) : degree (contract c) = degree c.
Proof. unfold contract. by destruct (_dict c). Qed.

End Dict.

(** ** One round of addition *)

Section Merge.
Import Inequality.

Lemma sval_app (ts us : list Term) (k : Z) :
  sval (ts ++ us) k = sval ts k + sval us k.
Proof. induction ts as [|x r IH]; simpl; [done|]. rewrite IH. lia. Qed.

Lemma negsum_app (ts us : list Term) :
  negsum (ts ++ us) = negsum ts + negsum us.
Proof. induction ts as [|x r IH]; simpl; [done|]. rewrite IH. lia. Qed.

Lemma sval_insert (i : nat) (ts : list Term) (x y : Term) (k : Z) :
  ts !! i = Some x → key y = key x →
  sval (<[i := y]> ts) k
  = sval ts k + (if bool_decide (key x = k) then signed y - signed x else 0).
Proof.
  revert i. induction ts as [|z r IH]; intros i; [done|].
  destruct i as [|i]; simpl.
  - intros [= ->] ->. case_bool_decide; lia.
  - intros Hx Hk. rewrite IH by done. lia.
Qed.

Lemma negsum_insert (i : nat) (ts : list Term) (x y : Term) :
  ts !! i = Some x →
  negsum (<[i := y]> ts) = negsum ts + negpart y - negpart x.
Proof.
  revert i. induction ts as [|z r IH]; intros i; [done|].
  destruct i as [|i]; simpl.
  - intros [= ->]. lia.
  - intros Hx. rewrite IH by done. lia.
Qed.

Lemma sval_absent (ts : list Term) (k : Z) :
  k ∉ map key ts → sval ts k = 0.
Proof.
  induction ts as [|x r IH]; simpl; [done|].
  rewrite not_elem_of_cons. intros [Hne Hk].
  rewrite bool_decide_eq_false_2 by done. rewrite IH by done. lia.
Qed.

Lemma elem_of_map_key (ts : list Term) (x : Term) :
  x ∈ ts → key x ∈ map key ts.
Proof. rewrite !list_elem_of_In. apply in_map. Qed.

Lemma sval_present (ts : list Term) (x : Term) :
  distinct ts → x ∈ ts → sval ts (key x) = signed x.
Proof.
  unfold distinct. induction ts as [|y r IH]; simpl.
  - intros _ H. by apply elem_of_nil in H.
  - rewrite NoDup_cons, elem_of_cons. intros [Hy Hnd] [->|Hx].
    + rewrite bool_decide_eq_true_2 by done. rewrite sval_absent by done. lia.
    + rewrite bool_decide_eq_false_2.
      * rewrite IH by done. lia.
      * intros Hk. apply Hy. rewrite Hk. by apply elem_of_map_key.
Qed.

Lemma merged_key (my other : Term) : key (merged my other) = key my.
Proof. arith. Qed.

(** The two ways a round of [addWithFactor] goes on a constraint whose
    variables are distinct. *)
Lemma merge_cases (self : t) (other : Term) :
  distinct (terms self) → dict_ok self →
  ((key other ∉ map key (terms self))
   ∧ merge self other
     = mk (degree self) (terms self ++ [other])
          (Some (index_from 0 (terms self ++ [other]))))
  ∨ (∃ i my, terms self !! i = Some my ∧ key my = key other
     ∧ merge self other
       = mk (degree self - cancellation my other)
            (<[i := merged my other]> (terms self))
            (Some (index_from 0 (<[i := merged my other]> (terms self))))).
Proof.
  intros Hnd Hd. unfold merge.
  assert (dict self
          = (index_from 0 (terms self),
             mk (degree self) (terms self) (Some (index_from 0 (terms self)))))
    as ->.
  { unfold dict, dict_ok in *. destruct self as [dg ts [d|]]; simpl in *.
    - by subst.
    - by rewrite dict_fill_index. }
  simpl. fold (key other).
  destruct (dict_get (key other) (index_from 0 (terms self))) as [i|] eqn:Hget.
  - right. destruct (dict_get_index _ _ _ _ Hget) as (my & Hmy & Hk & _).
    rewrite Nat.sub_0_r in Hmy. rewrite Hmy. fold (key my).
    rewrite bool_decide_eq_true_2 by done.
    exists i, my. split_and!; [done..|].
    rewrite (index_from_insert _ _ _ my) by (done || apply merged_key).
    unfold cancellation, merged, signed, variableUpperBounds.
    f_equal. lia.
  - left. apply dict_get_None in Hget. rewrite index_from_keys in Hget.
    split; [done|].
    rewrite dict_set_fresh by (by rewrite index_from_keys).
    rewrite index_from_app. simpl. by destruct other.
Qed.

Lemma merge_wf (self : t) (other : Term) :
  wf self → 0 ≤ coefficient other → wf (merge self other).
Proof.
  intros [[Hnn Hnd] Hd] Hc.
  destruct (merge_cases self other Hnd Hd)
    as [[Hfresh ->]|(i & my & Hmy & Hk & ->)]; (split; [split|]); simpl; try done.
  - apply Forall_app. split; [done|]. by repeat constructor.
  - unfold distinct. rewrite map_app. simpl.
    apply NoDup_app. split_and!; [done| |apply NoDup_singleton].
    intros k Hin Hin'. apply list_elem_of_singleton in Hin'. by subst.
  - apply Forall_insert; [done|]. simpl. lia.
  - unfold distinct.
    by rewrite (map_key_insert _ _ my) by (done || apply merged_key).
Qed.

Lemma merge_sval (self : t) (other : Term) (k : Z) :
  wf self → 0 ≤ coefficient other →
  sval (terms (merge self other)) k
  = sval (terms self) k + (if bool_decide (key other = k) then signed other else 0).
Proof.
  intros [[Hnn Hnd] Hd] Hc.
  destruct (merge_cases self other Hnd Hd)
    as [[Hfresh ->]|(i & my & Hmy & Hk & ->)]; simpl.
  - rewrite sval_app. simpl. lia.
  - rewrite (sval_insert _ _ my) by (done || apply merged_key).
    rewrite Hk. case_bool_decide; [|done].
    assert (0 ≤ coefficient my) as Hcm.
    { eapply (Forall_lookup_1 _ _ _ _ Hnn Hmy). }
    f_equal. clear -Hc Hcm Hk. arith.
Qed.

Lemma merge_cdeg (self : t) (other : Term) :
  wf self → 0 ≤ coefficient other →
  cdeg (terms (merge self other)) (degree (merge self other))
  = cdeg (terms self) (degree self) - negpart other.
Proof.
  intros [[Hnn Hnd] Hd] Hc. unfold cdeg.
  destruct (merge_cases self other Hnd Hd)
    as [[Hfresh ->]|(i & my & Hmy & Hk & ->)]; simpl.
  - rewrite negsum_app. simpl. lia.
  - rewrite (negsum_insert _ _ my) by done.
    assert (0 ≤ coefficient my) as Hcm.
    { eapply (Forall_lookup_1 _ _ _ _ Hnn Hmy). }
    clear -Hc Hcm Hk. arith.
Qed.

Lemma merge_dict (self : t) (other : Term) :
  distinct (terms self) → dict_ok self → _dict (merge self other) ≠ None.
Proof.
  intros Hnd Hd.
  by destruct (merge_cases self other Hnd Hd)
    as [[Hfresh ->]|(i & my & Hmy & Hk & ->)].
Qed.

Lemma merge_terms_nil (self : t) (other : Term) :
  distinct (terms self) → dict_ok self → terms (merge self other) ≠ [].
Proof.
  intros Hnd Hd.
  destruct (merge_cases self other Hnd Hd)
    as [[Hfresh ->]|(i & my & Hmy & Hk & ->)]; simpl.
  - by destruct (terms self).
  - intros Hnil. apply (f_equal length) in Hnil.
    rewrite length_insert in Hnil. apply lookup_lt_Some in Hmy.
    simpl in Hnil. lia.
Qed.

End Merge.

(** ** Adding a whole constraint *)

Section Add.
Import Inequality.

Lemma addWithFactor_view `{ConstraintView A} (self : t) (factor : Z)
    (other : A) (ts : list Term) (d : Z) :
  view_degree other = Ok d → view_terms other = Ok ts →
  addWithFactor self factor other = Ok (add_terms self factor ts d).
Proof. intros Hd Hts. unfold addWithFactor. by rewrite Hd, Hts. Qed.

Lemma scale_one (ts : list Term) :
  map (λ x, mkTerm (1 * coefficient x) (variable x)) ts = ts.
Proof.
  induction ts as [|[c v] r IH]; simpl; [done|].
  rewrite IH. by destruct c.
Qed.

Lemma scale_nonneg (factor : Z) (ts : list Term) :
  0 ≤ factor → nonneg ts →
  nonneg (map (λ x, mkTerm (factor * coefficient x) (variable x)) ts).
Proof.
  intros Hf Hts. induction Hts as [|x r Hx _ IH]; simpl; constructor; [|done].
  simpl. lia.
Qed.

Lemma fold_merge_wf (os : list Term) (self : t) :
  wf self → nonneg os → wf (fold_left merge os self).
Proof.
  revert self. induction os as [|o r IH]; intros self Hwf Hos; simpl; [done|].
  inv Hos. apply IH; [|done]. by apply merge_wf.
Qed.

Lemma fold_merge_sval (os : list Term) (self : t) (k : Z) :
  wf self → nonneg os →
  sval (terms (fold_left merge os self)) k = sval (terms self) k + sval os k.
Proof.
  revert self. induction os as [|o r IH]; intros self Hwf Hos; simpl; [lia|].
  inv Hos. rewrite IH by (done || by apply merge_wf).
  rewrite merge_sval by done. lia.
Qed.

Lemma fold_merge_cdeg (os : list Term) (self : t) :
  wf self → nonneg os →
  cdeg (terms (fold_left merge os self)) (degree (fold_left merge os self))
  = cdeg (terms self) (degree self) - negsum os.
Proof.
  revert self. induction os as [|o r IH]; intros self Hwf Hos; simpl; [lia|].
  inv Hos. rewrite IH by (done || by apply merge_wf).
  rewrite merge_cdeg by done. lia.
Qed.

Lemma fold_merge_dict (os : list Term) (self : t) :
  wf self → nonneg os → _dict self ≠ None ∨ os ≠ [] →
  _dict (fold_left merge os self) ≠ None.
Proof.
  revert self. induction os as [|o r IH]; intros self Hwf Hos Hor; simpl.
  - by destruct Hor.
  - inv Hos. apply IH; [by apply merge_wf | done |].
    left. apply merge_dict; apply Hwf.
Qed.

Lemma fold_merge_terms (os : list Term) (self : t) :
  wf self → nonneg os → terms self ≠ [] ∨ os ≠ [] →
  terms (fold_left merge os self) ≠ [].
Proof.
  revert self. induction os as [|o r IH]; intros self Hwf Hos Hor; simpl.
  - by destruct Hor.
  - inv Hos. apply IH; [by apply merge_wf | done |].
    left. apply merge_terms_nil; apply Hwf.
Qed.

Lemma wf_degree (self : t) (d : Z) :
  wf self → wf (mk d (terms self) (_dict self)).
Proof. by intros [[??]?]. Qed.

Lemma add_terms_wf (self : t) (factor : Z) (ts : list Term) (d : Z) :
  wf self → 0 ≤ factor → nonneg ts → wf (add_terms self factor ts d).
Proof.
  intros Hwf Hf Hts. apply fold_merge_wf; [by apply wf_degree|].
  by apply scale_nonneg.
Qed.

Lemma add_terms_sval (self : t) (ts : list Term) (d k : Z) :
  wf self → nonneg ts →
  sval (terms (add_terms self 1 ts d)) k = sval (terms self) k + sval ts k.
Proof.
  intros Hwf Hts. unfold add_terms. rewrite scale_one.
  by rewrite fold_merge_sval by (done || by apply wf_degree).
Qed.

Lemma add_terms_cdeg (self : t) (ts : list Term) (d : Z) :
  wf self → nonneg ts →
  cdeg (terms (add_terms self 1 ts d)) (degree (add_terms self 1 ts d))
  = cdeg (terms self) (degree self) + cdeg ts d.
Proof.
  intros Hwf Hts. unfold add_terms. rewrite scale_one.
  rewrite fold_merge_cdeg by (done || by apply wf_degree).
  unfold cdeg; simpl. lia.
Qed.

(** With nothing to add the terms and the dict stay as they are; else the
    dict is there afterwards. *)
Lemma add_terms_nil (self : t) (d : Z) :
  terms (add_terms self 1 [] d) = terms self
  ∧ _dict (add_terms self 1 [] d) = _dict self.
Proof. done. Qed.

Lemma add_terms_dict (self : t) (ts : list Term) (d : Z) :
  wf self → nonneg ts → _dict self ≠ None ∨ ts ≠ [] →
  _dict (add_terms self 1 ts d) ≠ None.
Proof.
  intros Hwf Hts Hor. unfold add_terms. rewrite scale_one.
  apply fold_merge_dict; [by apply wf_degree | done | done].
Qed.

Lemma add_terms_terms (self : t) (ts : list Term) (d : Z) :
  wf self → nonneg ts → terms self ≠ [] ∨ ts ≠ [] →
  terms (add_terms self 1 ts d) ≠ [].
Proof.
  intros Hwf Hts Hor. unfold add_terms. rewrite scale_one.
  apply fold_merge_terms; [by apply wf_degree | done | done].
Qed.

End Add.

(** ** Sorting by variable *)

Section Sorting.

Lemma insert_sorted_perm (x : Term) (l : list Term) :
  insert_sorted x l ≡ₚ x :: l.
Proof.
  induction l as [|y r IH]; simpl; [done|].
  case_bool_decide; [done|]. rewrite IH. apply Permutation_swap.
Qed.

Lemma sorted_perm (l : list Term) : sorted l ≡ₚ l.
Proof.
  induction l as [|x r IH]; simpl; [done|].
  rewrite insert_sorted_perm. by rewrite IH.
Qed.

Lemma insert_sorted_sorted (x : Term) (l : list Term) :
  StronglySorted key_le l → StronglySorted key_le (insert_sorted x l).
Proof.
  induction 1 as [|y r Hr IH Hy]; simpl.
  - repeat constructor.
  - case_bool_decide as Hxy.
    + constructor; [by constructor|].
      constructor; [done|].
      eapply Forall_impl; [exact Hy|]. unfold key_le. intros; lia.
    + constructor; [done|].
      rewrite insert_sorted_perm. constructor; [|done].
      unfold key_le. lia.
Qed.

Lemma sorted_sorted (l : list Term) : StronglySorted key_le (sorted l).
Proof.
  induction l as [|x r IH]; simpl; [constructor|].
  by apply insert_sorted_sorted.
Qed.

Lemma distinct_inj (l : list Term) (x y : Term) :
  distinct l → x ∈ l → y ∈ l → key x = key y → x = y.
Proof.
  unfold distinct. induction l as [|z r IH]; simpl.
  - intros _ Hx. by apply elem_of_nil in Hx.
  - rewrite NoDup_cons, !elem_of_cons.
    intros [Hz Hnd] [->|Hx] [->|Hy] Hk; [done| | |by apply IH].
    + destruct Hz. rewrite Hk. by apply elem_of_map_key.
    + destruct Hz. rewrite <- Hk. by apply elem_of_map_key.
Qed.

(** Two lists with the same terms, in whatever order, sort to the same
    list when no variable occurs twice. *)
Lemma sorted_unique (l1 l2 : list Term) :
  distinct l1 → l1 ≡ₚ l2 → sorted l1 = sorted l2.
Proof.
  intros Hnd Hp.
  apply (StronglySorted_unique_strong key_le); [|apply sorted_sorted..|].
  - intros x y Hx Hy Hxy Hyx. unfold key_le in *.
    apply (distinct_inj l1); [done| | |lia].
    + by rewrite <- (sorted_perm l1).
    + rewrite Hp. by rewrite <- (sorted_perm l2).
  - by rewrite !sorted_perm.
Qed.

End Sorting.

(** ** Constraints that say the same are equal *)

Section Equal.
Import Inequality.

Lemma term_canonical (x y : Term) :
  0 ≤ coefficient x → 0 ≤ coefficient y → coefficient x ≠ 0 →
  key x = key y → signed x = signed y → x = y.
Proof.
  destruct x as [c v], y as [c' v']. intros. f_equal; arith.
Qed.

Lemma signed_nz (x : Term) : nz x → signed x ≠ 0.
Proof. unfold nz. arith. Qed.

Lemma filter_nz_all (ts : list Term) : Forall nz ts → filter nz ts = ts.
Proof.
  induction 1 as [|x r Hx _ IH]; [done|].
  rewrite filter_cons_True by done. by rewrite IH.
Qed.

Lemma sval_filter (ts : list Term) (k : Z) : sval (filter nz ts) k = sval ts k.
Proof.
  induction ts as [|x r IH]; [done|].
  destruct (decide (nz x)) as [Hx|Hx].
  - rewrite filter_cons_True by done. simpl. by rewrite IH.
  - rewrite filter_cons_False by done. simpl. rewrite IH.
    assert (signed x = 0) as -> by (unfold nz in Hx; arith).
    case_bool_decide; lia.
Qed.

Lemma negsum_filter (ts : list Term) : negsum (filter nz ts) = negsum ts.
Proof.
  induction ts as [|x r IH]; [done|].
  destruct (decide (nz x)) as [Hx|Hx].
  - rewrite filter_cons_True by done. simpl. by rewrite IH.
  - rewrite filter_cons_False by done. simpl. rewrite IH.
    assert (negpart x = 0) as -> by (unfold nz in Hx; arith). lia.
Qed.

Lemma nonneg_filter (ts : list Term) : nonneg ts → nonneg (filter nz ts).
Proof.
  unfold nonneg. rewrite !Forall_forall. intros H x Hx.
  apply H. by apply list_elem_of_filter in Hx as [_ ?].
Qed.

Lemma distinct_filter (ts : list Term) : distinct ts → distinct (filter nz ts).
Proof.
  unfold distinct. induction ts as [|x r IH]; [done|]. simpl.
  rewrite NoDup_cons. intros [Hx Hnd].
  destruct (decide (nz x)) as [Hnz|Hnz].
  - rewrite filter_cons_True by done. simpl. apply NoDup_cons. split; [|by apply IH].
    intros Hin. apply Hx. rewrite list_elem_of_In, in_map_iff in Hin.
    destruct Hin as (y & Hk & Hy). rewrite <- Hk.
    apply elem_of_map_key. apply list_elem_of_In in Hy.
    by apply list_elem_of_filter in Hy as [_ ?].
  - rewrite filter_cons_False by done. by apply IH.
Qed.

Lemma nz_filter (ts : list Term) : Forall nz (filter nz ts).
Proof. apply Forall_forall. intros x Hx. by apply list_elem_of_filter in Hx as [? _]. Qed.

Lemma negsum_perm (l1 l2 : list Term) : l1 ≡ₚ l2 → negsum l1 = negsum l2.
Proof. induction 1; simpl; lia. Qed.

Lemma same_sval_incl (l1 l2 : list Term) :
  nonneg l1 → nonneg l2 → distinct l1 → distinct l2 → Forall nz l1 →
  (∀ k, sval l1 k = sval l2 k) →
  ∀ x, x ∈ l1 → x ∈ l2.
Proof.
  intros Hn1 Hn2 Hd1 Hd2 Hz1 Hs x Hx.
  assert (sval l2 (key x) = signed x) as Hv.
  { rewrite <- Hs. by apply sval_present. }
  assert (nz x) as Hnz by (by eapply Forall_forall in Hz1).
  destruct (decide (key x ∈ map key l2)) as [Hin|Hout].
  - rewrite list_elem_of_In, in_map_iff in Hin. destruct Hin as (y & Hk & Hy).
    apply list_elem_of_In in Hy.
    assert (x = y) as ->; [|done].
    apply term_canonical; try done.
    + by eapply Forall_forall in Hn1.
    + by eapply Forall_forall in Hn2.
    + rewrite <- Hv, <- Hk. by apply sval_present.
  - rewrite sval_absent in Hv by done.
    by destruct (signed_nz x).
Qed.

Lemma same_sval_perm (l1 l2 : list Term) :
  nonneg l1 → nonneg l2 → distinct l1 → distinct l2 →
  Forall nz l1 → Forall nz l2 →
  (∀ k, sval l1 k = sval l2 k) →
  l1 ≡ₚ l2.
Proof.
  intros Hn1 Hn2 Hd1 Hd2 Hz1 Hz2 Hs.
  apply NoDup_Permutation.
  - by eapply NoDup_fmap_1.
  - by eapply NoDup_fmap_1.
  - intros x. split; apply same_sval_incl; done.
Qed.

(** The terms [__eq__] compares on its left. *)
Lemma contract_value (c : t) :
  wf c → zero_ok c → terms (contract c) = filter nz (terms c).
Proof.
  intros [_ Hd] Hz. rewrite contract_terms by done.
  destruct (_dict c) eqn:E; [done|].
  rewrite filter_nz_all; [done|]. by apply Hz.
Qed.

Lemma eq_by_value `{ConstraintView A} (self : t) (other : A)
    (ts : list Term) (d : Z) :
  view_degree (view_contract other) = Ok d →
  view_terms (view_contract other) = Ok ts →
  wf self → zero_ok self →
  nonneg ts → distinct ts → Forall nz ts →
  (∀ k, sval (terms self) k = sval ts k) →
  cdeg (terms self) (degree self) = cdeg ts d →
  __eq__ self other = Ok true.
Proof.
  intros Hd Hts Hwf Hz Hn Hdi Hnz Hs Hc.
  assert (filter nz (terms self) ≡ₚ ts) as Hp.
  { destruct Hwf as [[Hn' Hd'] _].
    apply same_sval_perm;
      auto using nonneg_filter, distinct_filter, nz_filter.
    intros k. by rewrite sval_filter. }
  unfold __eq__. rewrite Hd. simpl.
  rewrite contract_degree, contract_value by done.
  rewrite bool_decide_eq_true_2.
  - rewrite Hts. simpl. rewrite bool_decide_eq_true_2; [done|].
    apply sorted_unique; [|done]. apply distinct_filter, Hwf.
  - unfold cdeg in Hc. apply negsum_perm in Hp.
    rewrite negsum_filter in Hp. lia.
Qed.

Lemma eq_by_sval (a b : t) :
  wf a → wf b → zero_ok a → zero_ok b →
  (∀ k, sval (terms a) k = sval (terms b) k) →
  cdeg (terms a) (degree a) = cdeg (terms b) (degree b) →
  __eq__ a b = Ok true.
Proof.
  intros Ha Hb Hza Hzb Hs Hc.
  apply (eq_by_value a b (filter nz (terms b)) (degree b)); try done.
  - simpl. by rewrite contract_degree.
  - simpl. by rewrite contract_value.
  - apply nonneg_filter, Hb.
  - apply distinct_filter, Hb.
  - apply nz_filter.
  - intros k. by rewrite sval_filter.
  - unfold cdeg. by rewrite negsum_filter.
Qed.

End Equal.

(** ** The normal form is kept *)

Section Normal.
Import Inequality.

Lemma normalize_terms (ts : list Term) (deg : Z) :
  nonneg (normalize ts deg).1 ∧ map key (normalize ts deg).1 = map key ts.
Proof.
  revert deg. induction ts as [|x r IH]; intros deg; simpl; [by split; [constructor|]|].
  case_bool_decide.
  - destruct (IH (deg + variableUpperBounds (Z.abs (- variable x))
                        * Z.abs (coefficient x))) as [Hn Hk].
    destruct (normalize r _) as [r' deg']; simpl in *. split.
    + constructor; [simpl; lia | done].
    + rewrite Hk. f_equal. unfold key; simpl. lia.
  - destruct (IH deg) as [Hn Hk].
    destruct (normalize r _) as [r' deg']; simpl in *. split.
    + constructor; [lia | done].
    + by rewrite Hk.
Qed.

Lemma init_terms (ts : list Term) (deg : Z) :
  terms (__init__ ts deg) = (normalize ts deg).1
  ∧ _dict (__init__ ts deg) = None.
Proof. unfold __init__. by destruct (normalize ts deg). Qed.

Lemma init_nonneg_coefficients (ts : list Term) (deg : Z) :
  nonneg (terms (__init__ ts deg)).
Proof. rewrite (proj1 (init_terms ts deg)). apply normalize_terms. Qed.

Lemma init_wf (ts : list Term) (deg : Z) : distinct ts → wf (__init__ ts deg).
Proof.
  intros Hd. destruct (init_terms ts deg) as [Ht Hdict].
  split; [split|].
  - apply init_nonneg_coefficients.
  - unfold distinct. rewrite Ht. by rewrite (proj2 (normalize_terms ts deg)).
  - unfold dict_ok. by rewrite Hdict.
Qed.

Lemma index_from_coefficients (g : Term → Z) (i : nat) (ts : list Term) :
  index_from i (map (λ x, mkTerm (g x) (variable x)) ts) = index_from i ts.
Proof. revert i. induction ts as [|x r IH]; intros i; simpl; [done|]. by rewrite IH. Qed.

Lemma map_key_coefficients (g : Term → Z) (ts : list Term) :
  map key (map (λ x, mkTerm (g x) (variable x)) ts) = map key ts.
Proof. induction ts as [|x r IH]; simpl; [done|]. by rewrite IH. Qed.

(** Writing new coefficients that are not negative into the terms keeps
    the normal form and the dict. *)
Lemma coefficients_wf (g : Term → Z) (c : t) (d : Z) :
  wf c → Forall (λ x, 0 ≤ g x) (terms c) →
  wf (mk d (map (λ x, mkTerm (g x) (variable x)) (terms c)) (_dict c)).
Proof.
  intros [[Hn Hd] Hdict] Hg. split; [split|]; simpl.
  - unfold nonneg. rewrite Forall_forall in *. intros y Hy.
    rewrite list_elem_of_In, in_map_iff in Hy. destruct Hy as (x & <- & Hx).
    simpl. apply Hg. by apply list_elem_of_In.
  - unfold distinct. by rewrite map_key_coefficients.
  - unfold dict_ok in *; simpl. destruct (_dict c); [|done].
    by rewrite index_from_coefficients.
Qed.

Lemma dict_wf (c : t) : wf c → wf (dict c).2.
Proof.
  intros Hwf. unfold dict. destruct (_dict c) eqn:E; [done|]. simpl.
  destruct Hwf as [[Hn Hd] _]. split; [done|].
  unfold dict_ok; simpl. f_equal. by apply dict_fill_index.
Qed.

Lemma dict_fields (c : t) :
  terms (dict c).2 = terms c ∧ degree (dict c).2 = degree c.
Proof. unfold dict. by destruct (_dict c). Qed.

Lemma saturate_wf (c : t) : wf c → 0 ≤ degree c → wf (saturate c).
Proof.
  intros Hwf Hdeg. pose proof (dict_wf c Hwf) as Hwf'.
  destruct (dict_fields c) as [Ht Hd].
  unfold saturate. destruct (dict c) as [d c']; simpl in *.
  apply (coefficients_wf (λ x, Z.min (coefficient x) (degree c'))); [done|].
  destruct Hwf' as [[Hn _] _]. eapply Forall_impl; [exact Hn|].
  simpl. intros. lia.
Qed.

Lemma divide_wf (c quotient : t) (d : Z) :
  wf c → 1 ≤ d → divide c d = Ok quotient → wf quotient.
Proof.
  intros Hwf Hd. unfold divide. case_bool_decide; [done|]. intros [= <-].
  apply (coefficients_wf (λ x, (coefficient x + d - 1) `div` d)); [done|].
  destruct Hwf as [[Hn _] _]. eapply Forall_impl; [exact Hn|].
  simpl. intros x Hx. apply Z.div_pos; lia.
Qed.

Lemma multiply_wf (c : t) (f : Z) : wf c → 1 ≤ f → wf (multiply c f).
Proof.
  intros Hwf Hf. unfold multiply.
  apply (coefficients_wf (λ x, coefficient x * f)); [done|].
  destruct Hwf as [[Hn _] _]. eapply Forall_impl; [exact Hn|].
  simpl. intros. lia.
Qed.

Lemma contract_wf (c : t) : wf c → wf (contract c).
Proof.
  intros Hwf. pose proof (contract_terms c (proj2 Hwf)) as Ht.
  unfold contract in *. destruct (_dict c); [|done]. simpl in *.
  destruct Hwf as [[Hn Hd] _]. split; [split|done]; simpl; rewrite Ht.
  - by apply nonneg_filter.
  - by apply distinct_filter.
Qed.

Lemma produced_wf (c : t) : produced c → wf c.
Proof.
  induction 1 as [ts d Hd|self factor other sum _ IHs _ IHo Hf Hadd
                  |self _ IH Hdeg|self d q _ IH Hd Hq|self f _ IH Hf|self _ IH].
  - by apply init_wf.
  - rewrite (addWithFactor_view self factor other (terms other) (degree other))
      in Hadd by done.
    injection Hadd as <-. apply add_terms_wf; [done | lia | apply IHo].
  - by apply saturate_wf.
  - by eapply divide_wf.
  - by apply multiply_wf.
  - by apply contract_wf.
Qed.

End Normal.

(** C2: the constructor does not merge the terms it is handed, so the
    constraint built from [1 x1 + 1 x1 >= 2] has two terms on [x1];
    [dict] keeps the last of them, [addWithFactor] merges into that one
    and [contract] makes the terms from the dict.  That constraint and
    [1 ~x1 >= 0] are both satisfied by [x1 = 1]; rule [p] on ["1 2 +"]
    makes [0 >= 1] of them, which nothing satisfies, where rule [a] with
    the factors 1 makes [1 x1 >= 1].  And [saturate] on the degree [-2]
    leaves a negative coefficient. *)
Theorem duplicate_terms_unsound :
  let first := Inequality.__init__ [mkTerm 1 1; mkTerm 1 1] 2 in
  let second := Inequality.__init__ [mkTerm 1 (-1)] 0 in
  let x := λ _ : Z, 1 in
  Inequality.terms first = [mkTerm 1 1; mkTerm 1 1]
  ∧ ¬ distinct (Inequality.terms first)
  ∧ ¬ normal first
  ∧ normal second
  ∧ assignment x ∧ satisfies x first ∧ satisfies x second
  ∧ ReversePolishNotation.compute
      (ReversePolishNotation.__init__ [Num 1; Num 2; Op Plus]) [first; second]
    = Ok [Materialized (Inequality.mk 1 [] None)]
  ∧ (∀ y, ¬ satisfies y (Inequality.mk 1 [] None))
  ∧ LinearCombination.compute (LinearCombination.mk [1; 1] [1; 2])
      [first; second]
    = Ok [Inequality.mk 1 [mkTerm 1 1] (Some [(1, 0%nat)])]
  ∧ ¬ nonneg (Inequality.terms
                (Inequality.saturate (Inequality.__init__ [mkTerm 3 1] (-2)))).
Proof.
  assert (¬ distinct [mkTerm 1 1; mkTerm 1 1]) as Hdup.
  { unfold distinct. simpl. intros [Hin _]%NoDup_cons. apply Hin. by left. }
  cbv zeta. split_and!.
  - done.
  - done.
  - by intros [_ Hd].
  - apply init_wf. distinct_keys.
  - intros k. unfold variableUpperBounds. lia.
  - by vm_compute.
  - by vm_compute.
  - by vm_compute.
  - intros y. unfold satisfies. simpl. lia.
  - by vm_compute.
  - intros Hn. inversion Hn as [|?? Hneg]. simpl in Hneg. lia.
Qed.

(** X25: the constructor leaves no negative coefficient, whatever its
    terms; and every constraint produced from terms on distinct variables
    by construction, [addWithFactor] with a factor [>= 1], [divide] by
    [d >= 1], [multiply] by [f >= 1], [contract], and [saturate] on a
    degree [>= 0], has no negative coefficient and at most one term on
    each variable. *)
Theorem produced_normal (c : Inequality.t) :
  produced c →
  normal c
  ∧ ∀ ts d, Forall (λ x, 0 ≤ coefficient x)
                   (Inequality.terms (Inequality.__init__ ts d)).
Proof.
  intros H. split; [by apply produced_wf | apply init_nonneg_coefficients].
Qed.

Lemma produced_normal_witness :
  normal (Inequality.multiply
            (Inequality.saturate
               (Inequality.__init__ [mkTerm (-5) 1; mkTerm 3 2] 2)) 3)
  ∧ ∀ ts d, Forall (λ x, 0 ≤ coefficient x)
                   (Inequality.terms (Inequality.__init__ ts d)).
Proof.
  apply produced_normal.
  apply produced_multiply; [|lia].
  apply produced_saturate; [|by vm_compute].
  apply produced_init. distinct_keys.
Defined.

(** ** Addition commutes *)

(** C7: [a = 0 x1 >= 0] and [b = 0 >= 0] are in normal form.
    [a.addWithFactor(1, b)] and [b.addWithFactor(1, a)] have the same
    terms, [0 x1], and the same degree; the first has no dict, as [b] has
    no term to look up, the second has one.  [__eq__] calls [contract] on
    both, which clears the one with a dict of the term [0 x1] and leaves
    the other as it is, and finds them different, from either side; with
    a dict in the first as well it finds them equal. *)
Theorem addition_compared_by_dict :
  let a := Inequality.__init__ [mkTerm 0 1] 0 in
  let b := Inequality.__init__ [] 0 in
  normal a ∧ normal b
  ∧ ∃ ab ba,
      Inequality.addWithFactor a 1 b = Ok ab
      ∧ Inequality.addWithFactor b 1 a = Ok ba
      ∧ Inequality.terms ab = [mkTerm 0 1]
      ∧ Inequality.terms ba = [mkTerm 0 1]
      ∧ Inequality.degree ab = Inequality.degree ba
      ∧ Inequality._dict ab = None
      ∧ Inequality._dict ba = Some [(1, 0%nat)]
      ∧ Inequality.__eq__ ab ba = Ok false
      ∧ Inequality.__eq__ ba ab = Ok false
      ∧ Inequality.__eq__ (Inequality.dict ab).2 ba = Ok true.
Proof.
  cbv zeta. split_and!.
  - apply init_wf. distinct_keys.
  - apply init_wf. distinct_keys.
  - eexists _, _. split_and!; by vm_compute.
Qed.

(** X26: for constraints [a] and [b] in normal form, each with its dict,
    if it has one, the dict of its terms, such that whichever of them is
    added to a constraint without terms has no term of coefficient 0 left
    by [contract], [a.addWithFactor(1, b)] and [b.addWithFactor(1, a)]
    raise nothing and compare equal. *)
Theorem add_commutes (a b : Inequality.t) :
  wf a → wf b →
  (Inequality.terms b = [] → zero_ok a) →
  (Inequality.terms a = [] → zero_ok b) →
  ∃ ab ba,
    Inequality.addWithFactor a 1 b = Ok ab
    ∧ Inequality.addWithFactor b 1 a = Ok ba
    ∧ Inequality.__eq__ ab ba = Ok true.
Proof.
  intros Ha Hb Hza Hzb.
  exists (add_terms a 1 (Inequality.terms b) (Inequality.degree b)),
         (add_terms b 1 (Inequality.terms a) (Inequality.degree a)).
  split_and!; [by apply addWithFactor_view..|].
  assert (∀ x y, wf x → wf y → (Inequality.terms y = [] → zero_ok x) →
            zero_ok (add_terms x 1 (Inequality.terms y) (Inequality.degree y)))
    as Hzero.
  { intros x y Hx Hy Hz Hnone.
    destruct (Inequality.terms y) as [|t r] eqn:E.
    - destruct (add_terms_nil x (Inequality.degree y)) as [-> Hd].
      apply Hz; [done|]. by rewrite <- Hd.
    - destruct (add_terms_dict x (t :: r) (Inequality.degree y));
        [done | rewrite <- E; apply Hy | by right | done]. }
  apply eq_by_sval.
  - apply add_terms_wf; [done | lia | apply Hb].
  - apply add_terms_wf; [done | lia | apply Ha].
  - by apply Hzero.
  - by apply Hzero.
  - intros k. rewrite !add_terms_sval by (done || apply Ha || apply Hb). lia.
  - rewrite !add_terms_cdeg by (done || apply Ha || apply Hb). lia.
Qed.

Lemma add_commutes_witness :
  ∃ ab ba,
    Inequality.addWithFactor
      (Inequality.__init__ [mkTerm 2 1; mkTerm 3 (-2)] 3) 1
      (Inequality.__init__ [mkTerm 2 (-1); mkTerm 1 2; mkTerm 1 5] 1) = Ok ab
    ∧ Inequality.addWithFactor
        (Inequality.__init__ [mkTerm 2 (-1); mkTerm 1 2; mkTerm 1 5] 1) 1
        (Inequality.__init__ [mkTerm 2 1; mkTerm 3 (-2)] 3) = Ok ba
    ∧ Inequality.__eq__ ab ba = Ok true.
Proof.
  apply add_commutes.
  - apply init_wf. distinct_keys.
  - apply init_wf. distinct_keys.
  - simpl. discriminate.
  - simpl. discriminate.
Defined.

(** ** Rule [p] with [+] alone, and rule [a] *)

Section Sum.
Import Inequality.

Lemma lazy_terms (c : t) :
  LazyInequality.terms (LazyInequality.__init__ c) = Ok (terms c).
Proof.
  unfold LazyInequality.terms; simpl.
  induction (terms c) as [|[co v] r IH]; simpl; [done|].
  unfold LazyInequality.applyTerm, LazyInequality.apply in *. simpl in *.
  by rewrite IH.
Qed.

Lemma lazy_degree (c : t) :
  LazyInequality.degree (LazyInequality.__init__ c) = Ok (degree c).
Proof. done. Qed.

Lemma total_sval_app (cs1 cs2 : list t) (k : Z) :
  total_sval (cs1 ++ cs2) k = total_sval cs1 k + total_sval cs2 k.
Proof. induction cs1 as [|c r IH]; simpl; [done|]. rewrite IH. lia. Qed.

Lemma total_cdeg_app (cs1 cs2 : list t) :
  total_cdeg (cs1 ++ cs2) = total_cdeg cs1 + total_cdeg cs2.
Proof. induction cs1 as [|c r IH]; simpl; [done|]. rewrite IH. lia. Qed.

Lemma sum_of_one (c : t) (built : Prop) :
  normal c → ¬ built → sum_of (terms c) (degree c) built [c].
Proof.
  intros [Hn Hd] Hb. split_and!; try done.
  - intros k. simpl. lia.
  - simpl. lia.
  - intros _. exists c, []. by split_and!.
  - intros Hnil. by repeat constructor.
Qed.

(** What the other operand of a [+] shows of itself. *)
Lemma item_view (e : Constraint) (cs : list t) :
  item_of e cs →
  ∃ ts d built,
    view_degree e = Ok d ∧ view_terms e = Ok ts ∧ sum_of ts d built cs.
Proof.
  destruct 1 as [c Hc|i cs Hwf Hsum].
  - exists (terms c), (degree c), False. split_and!.
    + apply lazy_degree.
    + apply lazy_terms.
    + apply sum_of_one; tauto.
  - by exists (terms i), (degree i), (_dict i ≠ None).
Qed.

(** The constraint a [+] adds to: the element itself, or the constraint
    built from a [LazyInequality]. *)
Lemma item_self (first : Constraint) (cs : list t) :
  item_of first cs →
  ∃ self,
    wf self
    ∧ sum_of (terms self) (degree self) (_dict self ≠ None) cs
    ∧ ∀ (second : Constraint) ts d,
        view_degree second = Ok d → view_terms second = Ok ts →
        ReversePolishNotation.addWithFactor first 1 second
        = Ok (Materialized (add_terms self 1 ts d)).
Proof.
  destruct 1 as [c Hc|i cs Hwf Hsum].
  - exists (mk (degree c) (terms c) None). split_and!.
    + by split.
    + simpl. apply sum_of_one; [done|]. intros Hb. by apply Hb.
    + intros second ts d Hd Hts. simpl.
      unfold LazyInequality.addWithFactor.
      rewrite lazy_degree, lazy_terms. simpl.
      rewrite init_nonneg by apply Hc.
      by rewrite (addWithFactor_view _ 1 second ts d).
  - exists i. split_and!; [done..|].
    intros second ts d Hd Hts. simpl.
    by rewrite (addWithFactor_view _ 1 second ts d).
Qed.

Lemma add_sum (self : t) (ts : list Term) (d : Z) (built : Prop)
    (cs1 cs2 : list t) :
  wf self →
  sum_of (terms self) (degree self) (_dict self ≠ None) cs1 →
  sum_of ts d built cs2 →
  wf (add_terms self 1 ts d)
  ∧ sum_of (terms (add_terms self 1 ts d)) (degree (add_terms self 1 ts d))
           (_dict (add_terms self 1 ts d) ≠ None) (cs1 ++ cs2).
Proof.
  intros Hwf (_ & _ & Hs1 & Hc1 & Hb1 & He1) (Hn2 & _ & Hs2 & Hc2 & _ & He2).
  assert (wf (add_terms self 1 ts d)) as Hwf'
    by (apply add_terms_wf; [done | lia | done]).
  split; [done|]. split_and!.
  - apply Hwf'.
  - apply Hwf'.
  - intros k. rewrite add_terms_sval, total_sval_app by done.
    rewrite Hs1, Hs2. lia.
  - rewrite add_terms_cdeg, total_cdeg_app by done. lia.
  - intros Hnone.
    destruct ts as [|o os].
    + destruct (add_terms_nil self d) as [Ht Hd].
      rewrite Hd in Hnone.
      destruct (Hb1 Hnone) as (c & rest & -> & Hterms & Hrest).
      exists c, (rest ++ cs2). split_and!; [done| |].
      * by rewrite Ht.
      * apply Forall_app. split; [done | by apply He2].
    + destruct Hnone. apply add_terms_dict; [done | done | by right].
  - intros Hnil. apply Forall_app.
    destruct ts as [|o os].
    + destruct (add_terms_nil self d) as [Ht _]. rewrite Ht in Hnil.
      split; [by apply He1 | by apply He2].
    + destruct (add_terms_terms self (o :: os) d); [done | done | by right | done].
Qed.

Lemma add_items (first second : Constraint) (cs1 cs2 : list t) :
  item_of first cs1 → item_of second cs2 →
  ∃ sum,
    ReversePolishNotation.addWithFactor first 1 second = Ok (Materialized sum)
    ∧ item_of (Materialized sum) (cs1 ++ cs2).
Proof.
  intros H1 H2.
  destruct (item_self first cs1 H1) as (self & Hwf & Hsum & Hadd).
  destruct (item_view second cs2 H2) as (ts & d & built & Hd & Hts & Hsum2).
  exists (add_terms self 1 ts d). split; [by apply Hadd|].
  destruct (add_sum self ts d built cs1 cs2) as [Hwf' Hsum']; [done..|].
  by constructor.
Qed.

End Sum.

Section Rpn.
Import Inequality.

Lemma balanced_tokens (sequence : list Ins) (depth : nat) :
  balanced depth sequence = true →
  Forall (λ x, x ≠ Op Times ∧ x ≠ Op Div) sequence.
Proof.
  revert depth. induction sequence as [|[n|[]] r IH]; intros depth; simpl; try done.
  - intros H. constructor; [done | by eapply IH].
  - destruct depth as [|[|d]]; try done.
    intros H. constructor; [done | by eapply IH].
Qed.

Lemma swap_at_sum (instructions : list Ins) (i : nat) :
  Forall (λ x, x ≠ Op Times ∧ x ≠ Op Div) instructions →
  ReversePolishNotation.swap_at instructions i = instructions.
Proof.
  intros H. unfold ReversePolishNotation.swap_at.
  destruct (instructions !! i) as [x|] eqn:E; [|done].
  rewrite bool_decide_eq_false_2; [done|].
  pose proof (Forall_lookup_1 _ _ _ _ H E). simpl in *. tauto.
Qed.

Lemma init_sum (sequence : list Ins) (depth : nat) :
  balanced depth sequence = true →
  ReversePolishNotation.instructions (ReversePolishNotation.__init__ sequence)
  = sequence.
Proof.
  intros H%balanced_tokens. unfold ReversePolishNotation.__init__; simpl.
  induction (seq 0 (length sequence)) as [|i r IH]; simpl; [done|].
  by rewrite swap_at_sum.
Qed.

Lemma stack_of_one (e : Constraint) (seen : list t) :
  stack_of [e] seen → item_of e seen.
Proof.
  inversion 1 as [|e' cs stack seen' He Hs]; subst.
  inversion Hs; subst. done.
Qed.

(** The loop of [compute] on a sum leaves one element, the sum of every
    antecedent. *)
Lemma run_sum (db : Z → t) (sequence : list Ins) :
  ∀ (depth : nat) (stack : list Constraint) (seen : list t),
    balanced depth sequence = true →
    length stack = depth →
    stack_of stack seen →
    Forall (λ id, normal (db id))
           (ReversePolishNotation.antecedents_of sequence) →
    ∃ e,
      ReversePolishNotation.run sequence stack
        (map db (ReversePolishNotation.antecedents_of sequence)) = Ok [e]
      ∧ item_of e (seen ++ map db (ReversePolishNotation.antecedents_of sequence)).
Proof.
  induction sequence as [|[n|[]] r IH]; intros depth stack seen Hb Hlen Hst Hn;
    simpl in Hb; try done.
  - apply bool_decide_eq_true_1 in Hb. subst depth.
    destruct stack as [|e [|??]]; try done.
    exists e. simpl. split; [done|]. rewrite app_nil_r. by apply stack_of_one.
  - simpl in *. inv Hn.
    destruct (IH (S (length stack))
                 (Lazy (LazyInequality.__init__ (db n)) :: stack)
                 (seen ++ [db n])) as (e & Hrun & He); try done.
    { constructor; [by constructor | done]. }
    exists e. split; [done|]. by rewrite <- app_assoc in He.
  - destruct depth as [|[|d]]; try done.
    destruct stack as [|second [|first stack]]; try done.
    inversion Hst as [|? cs2 ? seen2 H2 Hst2]; subst.
    inversion Hst2 as [|? cs1 ? seen1 H1 Hst1]; subst.
    destruct (add_items first second cs1 cs2 H1 H2) as (sum & Hadd & Hsum).
    change (ReversePolishNotation.antecedents_of (Op Plus :: r))
      with (ReversePolishNotation.antecedents_of r) in *.
    destruct (IH (S d) (Materialized sum :: stack) (seen1 ++ (cs1 ++ cs2)))
      as (e & Hrun & He); try done.
    { simpl in *. lia. }
    { by constructor. }
    exists e. split.
    + simpl. rewrite Hadd. simpl. done.
    + by rewrite <- (app_assoc seen1 cs1 cs2).
Qed.

Lemma accumulate_cons (acc c : t) (factor : Z) (rest : list (Z * t)) :
  LinearCombination.accumulate acc ((factor, c) :: rest)
  = acc' ← addWithFactor acc factor c; LinearCombination.accumulate acc' rest.
Proof. done. Qed.

(** The loop of rule [a] with every factor 1. *)
Lemma accumulate_ones (cs : list t) :
  ∀ acc, wf acc → Forall normal cs →
    ∃ r,
      LinearCombination.accumulate acc (zip (replicate (length cs) 1) cs) = Ok r
      ∧ wf r
      ∧ (∀ k, sval (terms r) k = sval (terms acc) k + total_sval cs k)
      ∧ cdeg (terms r) (degree r)
        = cdeg (terms acc) (degree acc) + total_cdeg cs
      ∧ (_dict r = None → _dict acc = None ∧ terms r = terms acc).
Proof.
  induction cs as [|c cs IH]; intros acc Hwf Hn.
  - exists acc. simpl. split_and!; try done; intros; lia.
  - inv Hn.
    change (zip (replicate (length (c :: cs)) 1) (c :: cs))
      with ((1, c) :: zip (replicate (length cs) 1) cs).
    rewrite accumulate_cons.
    rewrite (addWithFactor_view acc 1 c (terms c) (degree c)) by done.
    unfold mbind, result_bind.
    set (acc' := add_terms acc 1 (terms c) (degree c)).
    assert (wf acc') as Hwf'.
    { apply add_terms_wf; [done | lia |]. by destruct H1. }
    destruct (IH acc' Hwf') as (r & Hacc & Hr & Hs & Hc & Hd); [done|].
    exists r. split_and!; try done.
    + intros k. rewrite Hs. unfold acc'.
      rewrite add_terms_sval by (done || by destruct H1). simpl. lia.
    + rewrite Hc. unfold acc'.
      rewrite add_terms_cdeg by (done || by destruct H1). simpl. lia.
    + intros Hnone. destruct (Hd Hnone) as [Hnone' ->].
      destruct (terms c) as [|o os] eqn:E.
      * destruct (add_terms_nil acc (degree c)) as [Ht Hdict].
        unfold acc' in *. by rewrite <- Hdict, Ht.
      * destruct (add_terms_dict acc (o :: os) (degree c));
          [done | rewrite <- E; by destruct H1 | by right | done].
Qed.

End Rpn.

Lemma contract_twice (c : Inequality.t) :
  Inequality.contract (Inequality.contract c) = Inequality.contract c.
Proof.
  unfold Inequality.contract.
  destruct (Inequality._dict c) eqn:E; simpl; [done | by rewrite E].
Qed.

(** The element rule [p] is left with and the constraint of rule [a],
    both the sum of the antecedents [cs], compare equal. *)
Lemma sums_equal (e : Constraint) (cs : list Inequality.t) (r : Inequality.t) :
  item_of e cs → clears cs →
  wf r → zero_ok r →
  (∀ k, sval (Inequality.terms r) k = total_sval cs k) →
  cdeg (Inequality.terms r) (Inequality.degree r) = total_cdeg cs →
  Inequality.__eq__ r (view_contract e) = Ok true
  ∧ ∀ i, view_contract e = Materialized i → Inequality.__eq__ i r = Ok true.
Proof.
  intros He Hclears Hr Hzr Hs Hc.
  destruct He as [c Hnc|i cs Hwf Hsum].
  - (* a LazyInequality on the one antecedent *)
    split; [|done].
    apply (eq_by_value r _ (Inequality.terms c) (Inequality.degree c));
      try done.
    + apply lazy_terms.
    + apply Hnc.
    + apply Hnc.
    + destruct Hclears as [Hz|Hex]; [done | by inv Hex].
    + intros k. rewrite Hs. simpl. lia.
    + rewrite Hc. simpl. lia.
  - (* an Inequality made by [+] *)
    destruct Hsum as (Hn' & Hd' & Hs' & Hc' & Hb' & He').
    assert (zero_ok i) as Hzi.
    { intros Hnone.
      assert (¬ Inequality._dict i ≠ None) as Hnn
        by (intros Hsome; by apply Hsome).
      destruct (Hb' Hnn) as (c & rest & -> & -> & Hrest).
      destruct Hclears as [Hz|Hex]; [done|].
      apply Exists_exists in Hex as (x & Hx & Hnx).
      rewrite Forall_forall in Hrest. destruct Hnx.
      by apply Hrest. }
    split.
    + apply (eq_by_value r _ (filter nz (Inequality.terms i))
                         (Inequality.degree i)).
      * simpl. by rewrite contract_twice, contract_degree.
      * simpl. by rewrite contract_twice, contract_value.
      * done.
      * done.
      * by apply nonneg_filter.
      * by apply distinct_filter.
      * apply nz_filter.
      * intros k. by rewrite sval_filter, Hs, Hs'.
      * unfold cdeg in *. rewrite negsum_filter. lia.
    + intros j [= <-].
      apply eq_by_sval.
      * by apply contract_wf.
      * done.
      * intros _. rewrite contract_value by done. apply nz_filter.
      * done.
      * intros k. rewrite contract_value by done.
        by rewrite sval_filter, Hs, Hs'.
      * rewrite contract_value, contract_degree by done.
        unfold cdeg in *. rewrite negsum_filter. lia.
Qed.

(** C6: on the antecedents [0 x1 >= 1] and [0 >= 0], both in normal form,
    rule [p] with ["1 2 +"] and rule [a] with the ids 1 and 2 and the
    factors 1 return constraints of the same terms, [0 x1], and the same
    degree.  The one of rule [p] has no dict, so that [contract] left it
    as it was, the one of rule [a] has one; [__eq__] finds them different,
    from either side, and equal once the first has a dict as well.  On the
    single id ["1"] of the constraint rule [a] returned, rule [p] returns
    the [LazyInequality] of it, whose [contract] does nothing: the same
    terms and degree again, and [__eq__] finds them different. *)
Theorem rpn_sum_compared_by_dict :
  let first := Inequality.__init__ [mkTerm 0 1] 1 in
  let second := Inequality.__init__ [] 0 in
  normal first ∧ normal second
  ∧ balanced 0 [Num 1; Num 2; Op Plus] = true
  ∧ ∃ by_p by_a,
      ReversePolishNotation.compute
        (ReversePolishNotation.__init__ [Num 1; Num 2; Op Plus])
        [first; second] = Ok [Materialized by_p]
      ∧ LinearCombination.compute (LinearCombination.mk [1; 1] [1; 2])
          [first; second] = Ok [by_a]
      ∧ Inequality.terms by_p = [mkTerm 0 1]
      ∧ Inequality.terms by_a = [mkTerm 0 1]
      ∧ Inequality.degree by_p = Inequality.degree by_a
      ∧ Inequality._dict by_p = None
      ∧ Inequality._dict by_a = Some [(1, 0%nat)]
      ∧ Inequality.__eq__ by_p by_a = Ok false
      ∧ Inequality.__eq__ by_a by_p = Ok false
      ∧ Inequality.__eq__ (Inequality.dict by_p).2 by_a = Ok true
      ∧ ∃ lazy again,
          ReversePolishNotation.compute
            (ReversePolishNotation.__init__ [Num 1]) [by_a] = Ok [Lazy lazy]
          ∧ LinearCombination.compute (LinearCombination.mk [1] [1]) [by_a]
            = Ok [again]
          ∧ LazyInequality.terms lazy = Ok (Inequality.terms again)
          ∧ LazyInequality.degree lazy = Ok (Inequality.degree again)
          ∧ Inequality.__eq__ again lazy = Ok false.
Proof.
  cbv zeta. split_and!.
  - apply init_wf. distinct_keys.
  - apply init_wf. distinct_keys.
  - done.
  - eexists _, _. split_and!; try by vm_compute.
    eexists _, _. split_and!; by vm_compute.
Qed.

(** X27: let [sequence] be a sum in reverse Polish notation, of ids and
    [+] alone, whose antecedents are in normal form (no negative
    coefficient, every variable once) and such that the first has no term
    of coefficient 0 or one of the others has a term.  Then rule [p] and
    rule [a] on the same ids, in the same order and with every factor 1,
    both return one constraint, and the two compare equal (from either
    side, when rule [p] returns an [Inequality]). *)
Theorem sum_in_rpn (db : Z → Inequality.t) (sequence : list Ins) :
  let p := ReversePolishNotation.__init__ sequence in
  let ids := ReversePolishNotation.antecedentIDs p in
  let a := LinearCombination.mk (replicate (length ids) 1) ids in
  balanced 0 sequence = true →
  Forall (λ id, normal (db id)) ids →
  clears (map db ids) →
  ∃ by_p by_a,
    ReversePolishNotation.compute p (map db ids) = Ok [by_p]
    ∧ LinearCombination.compute a (map db (LinearCombination.antecedentIDs a))
      = Ok [by_a]
    ∧ Inequality.__eq__ by_a by_p = Ok true
    ∧ ∀ i, by_p = Materialized i → Inequality.__eq__ i by_a = Ok true.
Proof.
  intros p ids a Hb Hn Hclears. subst a ids p.
  unfold ReversePolishNotation.antecedentIDs in *.
  rewrite (init_sum sequence 0 Hb) in *.
  set (cs := map db (ReversePolishNotation.antecedents_of sequence)) in *.
  (* rule p *)
  destruct (run_sum db sequence 0%nat [] [] Hb eq_refl stack_empty Hn)
    as (e & Hrun & He).
  fold cs in Hrun, He. simpl in He.
  (* rule a *)
  assert (Forall normal cs) as Hcs.
  { unfold cs. clear -Hn. induction Hn; simpl; by constructor. }
  destruct (accumulate_ones cs (Inequality.__init__ [] 0)) as
    (r & Hacc & Hr & Hs & Hc & Hd); [| done |].
  { apply init_wf. apply NoDup_nil_2. }
  assert (zero_ok r) as Hzr.
  { intros Hnone. destruct (Hd Hnone) as [_ ->]. constructor. }
  assert (∀ k, sval (Inequality.terms r) k = total_sval cs k) as Hs'.
  { intros k. rewrite Hs. simpl. lia. }
  assert (cdeg (Inequality.terms r) (Inequality.degree r) = total_cdeg cs)
    as Hc'.
  { rewrite Hc. unfold cdeg. simpl. lia. }
  destruct (sums_equal e cs r He Hclears Hr Hzr Hs' Hc') as [Heq Heq'].
  exists (view_contract e), r.
  split_and!; [| |done|done].
  - unfold ReversePolishNotation.compute.
    rewrite (init_sum sequence 0 Hb). fold cs. by rewrite Hrun.
  - unfold LinearCombination.compute, LinearCombination.antecedentIDs.
    cbn [LinearCombination.factors LinearCombination.antecedentIds].
    fold cs.
    replace (length (ReversePolishNotation.antecedents_of sequence))
      with (length cs) by (unfold cs; apply length_map).
    by rewrite Hacc.
Qed.

Lemma example_db_normal (id : Z) : normal (example_db id).
Proof.
  unfold example_db. case_bool_decide; apply init_wf; distinct_keys.
Qed.

Lemma sum_in_rpn_witness :
  let sequence := [Num 1; Num 2; Op Plus; Num 1; Op Plus] in
  let p := ReversePolishNotation.__init__ sequence in
  let ids := ReversePolishNotation.antecedentIDs p in
  let a := LinearCombination.mk (replicate (length ids) 1) ids in
  ∃ by_p by_a,
    ReversePolishNotation.compute p (map example_db ids) = Ok [by_p]
    ∧ LinearCombination.compute a
        (map example_db (LinearCombination.antecedentIDs a)) = Ok [by_a]
    ∧ Inequality.__eq__ by_a by_p = Ok true
    ∧ ∀ i, by_p = Materialized i → Inequality.__eq__ i by_a = Ok true.
Proof.
  apply (sum_in_rpn example_db [Num 1; Num 2; Op Plus; Num 1; Op Plus]).
  - reflexivity.
  - apply Forall_forall. intros id _. apply example_db_normal.
  - left. vm_compute. repeat (apply Forall_cons; split; [done|]).
    apply Forall_nil_2.
Defined.

(** * What the constraints say

    The meaning of a constraint under an assignment, and what the
    operations and the rules make of it. *)

Section Meaning.
Import Inequality.
Context (x : Z → Z).

Lemma value_app (ts us : list Term) :
  value x (ts ++ us) = value x ts + value x us.
Proof. induction ts as [|t r IH]; simpl; [done|]. rewrite IH. lia. Qed.

Lemma value_perm (l1 l2 : list Term) : l1 ≡ₚ l2 → value x l1 = value x l2.
Proof. induction 1; simpl; lia. Qed.

Lemma value_filter (ts : list Term) : value x (filter nz ts) = value x ts.
Proof.
  induction ts as [|t r IH]; [done|].
  destruct (decide (nz t)) as [Ht|Ht].
  - rewrite filter_cons_True by done. simpl. by rewrite IH.
  - rewrite filter_cons_False by done. simpl. rewrite IH.
    unfold nz in Ht. assert (coefficient t = 0) as -> by lia. lia.
Qed.

(** A term without a negative coefficient, with its negated literal
    written out. *)
Lemma term_lin (t : Term) :
  0 ≤ coefficient t →
  coefficient t * literal x (variable t) = signed t * x (key t) + negpart t.
Proof. intros Ht. unfold literal. arith. Qed.

Lemma value_lin (ts : list Term) :
  nonneg ts → value x ts = lin x ts + negsum ts.
Proof.
  induction 1 as [|t r Ht _ IH]; simpl; [done|].
  rewrite IH, term_lin by done. lia.
Qed.

Lemma margin_lin (c : t) :
  nonneg (terms c) →
  margin x c = lin x (terms c) - cdeg (terms c) (degree c).
Proof. intros Hn. unfold margin, cdeg. rewrite value_lin by done. lia. Qed.

Lemma lin_app (ts us : list Term) : lin x (ts ++ us) = lin x ts + lin x us.
Proof. induction ts as [|t r IH]; simpl; [done|]. rewrite IH. lia. Qed.

Lemma lin_insert (i : nat) (ts : list Term) (a b : Term) :
  ts !! i = Some a → key b = key a →
  lin x (<[i := b]> ts) = lin x ts + (signed b - signed a) * x (key a).
Proof.
  revert i. induction ts as [|z r IH]; intros i; [done|].
  destruct i as [|i]; simpl.
  - intros [= ->] ->. lia.
  - intros Ha Hk. rewrite IH by done. lia.
Qed.

(** The construction *)

Lemma normalize_value (ts : list Term) (deg : Z) :
  proper ts →
  value x (normalize ts deg).1 - (normalize ts deg).2 = value x ts - deg.
Proof.
  intros Hp. revert deg. induction Hp as [|t r Ht _ IH]; intros deg; simpl; [done|].
  case_bool_decide as Hc.
  - specialize (IH (deg + variableUpperBounds (Z.abs (- variable t))
                          * Z.abs (coefficient t))).
    destruct (normalize r _) as [r' deg']; simpl in *.
    unfold literal, variableUpperBounds in *.
    rewrite Z.abs_opp. repeat case_bool_decide; lia.
  - specialize (IH deg).
    destruct (normalize r _) as [r' deg']; simpl in *. lia.
Qed.

Lemma init_margin (ts : list Term) (deg : Z) :
  proper ts → margin x (__init__ ts deg) = value x ts - deg.
Proof.
  intros Hp. pose proof (normalize_value ts deg Hp) as H.
  unfold margin, __init__. by destruct (normalize ts deg).
Qed.

(** One round of addition *)

Lemma merge_lin (self : t) (other : Term) :
  wf self → 0 ≤ coefficient other →
  lin x (terms (merge self other))
  = lin x (terms self) + signed other * x (key other).
Proof.
  intros [[Hnn Hnd] Hd] Hc.
  destruct (merge_cases self other Hnd Hd)
    as [[Hfresh ->]|(i & my & Hmy & Hk & ->)]; simpl.
  - rewrite lin_app. simpl. lia.
  - rewrite (lin_insert _ _ my) by (done || apply merged_key).
    rewrite Hk.
    assert (0 ≤ coefficient my) as Hcm.
    { eapply (Forall_lookup_1 _ _ _ _ Hnn Hmy). }
    assert (signed (merged my other) - signed my = signed other) as ->; [|done].
    clear -Hc Hcm Hk. arith.
Qed.

Lemma fold_merge_lin (os : list Term) (self : t) :
  wf self → nonneg os →
  lin x (terms (fold_left merge os self)) = lin x (terms self) + lin x os.
Proof.
  revert self. induction os as [|o r IH]; intros self Hwf Hos; simpl; [lia|].
  inv Hos. rewrite IH by (done || by apply merge_wf).
  rewrite merge_lin by done. lia.
Qed.

Lemma scale_lin (factor : Z) (ts : list Term) :
  0 ≤ factor →
  lin x (map (λ t, mkTerm (factor * coefficient t) (variable t)) ts)
  = factor * lin x ts.
Proof.
  intros Hf. induction ts as [|t r IH]; simpl; [lia|]. rewrite IH.
  assert (signed (mkTerm (factor * coefficient t) (variable t))
          = factor * signed t) as ->.
  { unfold signed, copysign; simpl. case_bool_decide; nia. }
  unfold key; simpl. lia.
Qed.

Lemma scale_negsum (factor : Z) (ts : list Term) :
  0 ≤ factor →
  negsum (map (λ t, mkTerm (factor * coefficient t) (variable t)) ts)
  = factor * negsum ts.
Proof.
  intros Hf. induction ts as [|t r IH]; simpl; [lia|]. rewrite IH.
  assert (negpart (mkTerm (factor * coefficient t) (variable t))
          = factor * negpart t) as ->; [|lia].
  unfold negpart, signed, copysign; simpl. case_bool_decide; nia.
Qed.

Lemma add_terms_margin (self : t) (factor : Z) (ts : list Term) (d : Z) :
  wf self → 0 ≤ factor → nonneg ts →
  margin x (add_terms self factor ts d)
  = margin x self + factor * (value x ts - d).
Proof.
  intros Hwf Hf Hts.
  rewrite margin_lin by (by apply add_terms_wf).
  rewrite margin_lin by apply Hwf.
  rewrite (value_lin ts) by done.
  unfold add_terms.
  rewrite fold_merge_lin, fold_merge_cdeg
    by (by apply wf_degree || by apply scale_nonneg).
  rewrite scale_lin, scale_negsum by done.
  unfold cdeg; simpl. lia.
Qed.

End Meaning.

Section Operations.
Import Inequality.
Context (x : Z → Z).

Lemma literal_bounds (v : Z) : assignment x → 0 ≤ literal x v ≤ 1.
Proof.
  intros Hx. unfold literal. specialize (Hx (Z.abs v)).
  unfold variableUpperBounds in *. case_bool_decide; lia.
Qed.

Lemma value_nonneg (ts : list Term) :
  assignment x → nonneg ts → 0 ≤ value x ts.
Proof.
  intros Hx. induction 1 as [|t r Ht _ IH]; simpl; [done|].
  pose proof (literal_bounds (variable t) Hx). nia.
Qed.

(** Multiplication *)

Lemma value_multiply (ts : list Term) (f : Z) :
  value x (map (λ term, mkTerm (coefficient term * f) (variable term)) ts)
  = value x ts * f.
Proof. induction ts as [|t r IH]; simpl; [done|]. rewrite IH. lia. Qed.

(** Division *)



(** Saturation *)

Lemma value_saturate (ts : list Term) (deg : Z) :
  assignment x → nonneg ts → 0 ≤ deg →
  Z.min deg (value x ts)
  ≤ value x (map (λ term, mkTerm (Z.min (coefficient term) deg)
                                 (variable term)) ts).
Proof.
  intros Hx Hts Hdeg. induction Hts as [|t r Ht Hr IH]; simpl; [lia|].
  pose proof (literal_bounds (variable t) Hx).
  pose proof (value_nonneg r Hx Hr).
  assert (literal x (variable t) = 0 ∨ literal x (variable t) = 1) as [->| ->]
    by lia; lia.
Qed.

(** The test for a contradiction *)

Lemma slack_from (ts : list Term) (a : Z) :
  fold_left (λ slack term, slack + coefficient term) ts a
  = a + fold_left (λ slack term, slack + coefficient term) ts 0.
Proof.
  revert a. induction ts as [|t r IH]; intros a; simpl; [lia|].
  rewrite (IH (a + coefficient t)), (IH (0 + coefficient t)). lia.
Qed.

Lemma value_below (ts : list Term) :
  assignment x → nonneg ts →
  value x ts ≤ fold_left (λ slack term, slack + coefficient term) ts 0.
Proof.
  intros Hx. induction 1 as [|t r Ht _ IH]; simpl; [done|].
  rewrite slack_from.
  pose proof (literal_bounds (variable t) Hx). nia.
Qed.

Lemma value_all (ts : list Term) :
  Forall (λ t, literal x (variable t) = 1) ts →
  value x ts = fold_left (λ slack term, slack + coefficient term) ts 0.
Proof.
  induction 1 as [|t r Ht _ IH]; simpl; [done|].
  rewrite slack_from, IH, Ht. lia.
Qed.

End Operations.

Section AllTrue.

Lemma all_true_assignment (ts : list Term) : assignment (all_true ts).
Proof.
  intros k. unfold all_true, variableUpperBounds. case_bool_decide; lia.
Qed.

Lemma elem_of_map_variable (ts : list Term) (t : Term) :
  t ∈ ts → variable t ∈ map variable ts.
Proof. rewrite !list_elem_of_In. apply in_map. Qed.

Lemma all_true_literal (ts : list Term) (t : Term) :
  distinct ts → proper ts → t ∈ ts →
  literal (all_true ts) (variable t) = 1.
Proof.
  intros Hd Hp Ht.
  assert (variable t ≠ 0) as Hv.
  { unfold proper in Hp. rewrite Forall_forall in Hp. by apply Hp. }
  unfold literal, all_true, variableUpperBounds.
  case_bool_decide as Hsign.
  - rewrite Z.abs_eq by done.
    rewrite bool_decide_eq_true_2; [done|]. by apply elem_of_map_variable.
  - rewrite bool_decide_eq_false_2; [lia|].
    intros Hin. rewrite list_elem_of_In, in_map_iff in Hin.
    destruct Hin as (t' & Hv' & Ht'). apply list_elem_of_In in Ht'.
    assert (t' = t) as ->.
    { apply (distinct_inj ts); [done..|]. unfold key. rewrite Hv'. lia. }
    lia.
Qed.

Lemma all_true_value (ts : list Term) :
  distinct ts → proper ts →
  value (all_true ts) ts
  = fold_left (λ slack term, slack + coefficient term) ts 0.
Proof.
  intros Hd Hp. apply value_all. apply Forall_forall.
  intros t Ht. by apply all_true_literal.
Qed.

End AllTrue.

(** X1: for terms on variables other than 0, the constraint the
    constructor stores says what was handed to it: under every [x] the sum
    of its terms exceeds its degree by as much as the sum of the given
    terms exceeds the given degree. *)
Theorem construction_keeps_meaning (x : Z → Z) (ts : list Term) (d : Z) :
  proper ts →
  margin x (Inequality.__init__ ts d) = value x ts - d
  ∧ (satisfies x (Inequality.__init__ ts d) ↔ d ≤ value x ts).
Proof.
  intros Hp. pose proof (init_margin x ts d Hp) as H.
  split; [done|]. unfold margin, satisfies in *. lia.
Qed.

Lemma construction_keeps_meaning_witness :
  let x := λ k, if bool_decide (k = 2) then 1 else 0 in
  let ts := [mkTerm (-2) 1; mkTerm 3 (-2); mkTerm (-1) (-3)] in
  margin x (Inequality.__init__ ts (-1)) = value x ts - -1
  ∧ (satisfies x (Inequality.__init__ ts (-1)) ↔ -1 ≤ value x ts).
Proof.
  apply construction_keeps_meaning.
  repeat constructor; simpl; lia.
Defined.

(** X2: [self.addWithFactor(factor, other)] with a factor that is not
    negative, on [self] in normal form and [other] without a negative
    coefficient, raises nothing, and under every [x] the margin of the
    result is the margin of [self] plus [factor] times the margin of
    [other]: merging two terms on one variable and taking the cancellation
    from the degree changes nothing of what the sum says. *)
Theorem addition_adds_margins (self other : Inequality.t) (factor : Z) :
  wf self → nonneg (Inequality.terms other) → 0 ≤ factor →
  ∃ sum, Inequality.addWithFactor self factor other = Ok sum
    ∧ ∀ x, margin x sum = margin x self + factor * margin x other.
Proof.
  intros Hwf Hts Hf.
  exists (add_terms self factor (Inequality.terms other) (Inequality.degree other)).
  split; [by apply addWithFactor_view|].
  intros x. by apply add_terms_margin.
Qed.

Lemma addition_adds_margins_witness :
  ∃ sum, Inequality.addWithFactor
           (Inequality.__init__ [mkTerm 2 1; mkTerm 3 (-2)] 3) 2
           (Inequality.__init__ [mkTerm 2 (-1); mkTerm 1 2; mkTerm 1 5] 1)
         = Ok sum
    ∧ ∀ x, margin x sum
           = margin x (Inequality.__init__ [mkTerm 2 1; mkTerm 3 (-2)] 3)
             + 2 * margin x (Inequality.__init__
                               [mkTerm 2 (-1); mkTerm 1 2; mkTerm 1 5] 1).
Proof.
  apply addition_adds_margins.
  - apply init_wf. distinct_keys.
  - apply init_nonneg_coefficients.
  - lia.
Defined.

(** X3: [multiply(f)] multiplies the margin by [f], under every [x]. *)
Theorem multiplication_scales_margin (x : Z → Z) (c : Inequality.t) (f : Z) :
  margin x (Inequality.multiply c f) = margin x c * f.
Proof.
  unfold margin, Inequality.multiply; simpl. rewrite value_multiply. lia.
Qed.



(** X5: on a constraint without a negative coefficient whose degree is
    not negative, an assignment that satisfies the constraint satisfies
    the saturated one. *)
Theorem saturation_sound (x : Z → Z) (c : Inequality.t) :
  assignment x → nonneg (Inequality.terms c) → 0 ≤ Inequality.degree c →
  satisfies x c → satisfies x (Inequality.saturate c).
Proof.
  intros Hx Hn Hdeg Hc. unfold satisfies in *.
  rewrite saturate_terms, saturate_degree.
  pose proof (value_saturate x _ _ Hx Hn Hdeg). lia.
Qed.

Lemma saturation_sound_witness :
  let x := λ k, if bool_decide (k = 1) then 1 else 0 in
  satisfies x (Inequality.saturate
                 (Inequality.__init__ [mkTerm 3 1; mkTerm 5 (-2)] 2)).
Proof.
  apply saturation_sound.
  - intros k. unfold variableUpperBounds. case_bool_decide; lia.
  - apply init_nonneg_coefficients.
  - by vm_compute.
  - by vm_compute.
Defined.

(** X6: on a constraint in normal form over variables other than 0,
    [isContradiction] answers True exactly when no assignment satisfies
    the constraint. *)
Theorem contradiction_iff_unsatisfiable (c : Inequality.t) :
  normal c → proper (Inequality.terms c) →
  Inequality.isContradiction c = true
  ↔ ∀ x, assignment x → ¬ satisfies x c.
Proof.
  intros [Hn Hd] Hp. unfold Inequality.isContradiction, satisfies.
  rewrite slack_from, bool_decide_eq_true. split.
  - intros Hslack x Hx. pose proof (value_below x _ Hx Hn). lia.
  - intros Hno.
    specialize (Hno _ (all_true_assignment (Inequality.terms c))).
    rewrite all_true_value in Hno by done. lia.
Qed.

Lemma contradiction_iff_unsatisfiable_witness :
  let c := Inequality.__init__ [mkTerm 1 1; mkTerm 2 (-2)] 4 in
  Inequality.isContradiction c = true
  ↔ ∀ x, assignment x → ¬ satisfies x c.
Proof.
  apply contradiction_iff_unsatisfiable.
  - split; [apply init_nonneg_coefficients | distinct_keys].
  - repeat constructor; simpl; lia.
Defined.

Section Compare.
Import Inequality.

Lemma contract_margin (x : Z → Z) (c : t) :
  wf c → margin x (contract c) = margin x c.
Proof.
  intros [_ Hd]. unfold margin.
  rewrite contract_degree, contract_terms by done.
  destruct (_dict c); [|done]. by rewrite (value_filter x).
Qed.

Lemma eq_margin (x : Z → Z) (a b : t) :
  wf a → wf b → __eq__ a b = Ok true → margin x a = margin x b.
Proof.
  intros Ha Hb. unfold __eq__; simpl.
  case_bool_decide as Hdeg; [|done]. simpl.
  intros [= Hs]. apply bool_decide_eq_true in Hs.
  rewrite <- (contract_margin x a), <- (contract_margin x b) by done.
  unfold margin. rewrite Hdeg. f_equal.
  rewrite <- (value_perm x _ _ (sorted_perm (terms (contract a)))).
  rewrite <- (value_perm x _ _ (sorted_perm (terms (contract b)))).
  by rewrite Hs.
Qed.

End Compare.

Section Combination.
Import Inequality.

Lemma accumulate_margin (pairs : list (Z * t)) (acc : t) :
  wf acc →
  Forall (λ p, 0 ≤ p.1 ∧ nonneg (terms p.2)) pairs →
  ∃ r, LinearCombination.accumulate acc pairs = Ok r
       ∧ wf r
       ∧ ∀ x, margin x r = margin x acc + weighted x pairs.
Proof.
  intros Hwf Hp. revert acc Hwf.
  induction Hp as [|[f c] rest [Hf Hc] _ IH]; intros acc Hwf.
  - exists acc. split_and!; [done..|]. intros x; simpl. lia.
  - simpl in Hf, Hc.
    rewrite accumulate_cons.
    rewrite (addWithFactor_view acc f c (terms c) (degree c)) by done.
    unfold mbind, result_bind.
    destruct (IH (add_terms acc f (terms c) (degree c)))
      as (r & Hr & Hwfr & Hm); [by apply add_terms_wf|].
    exists r. split_and!; [done..|].
    intros x. rewrite Hm, add_terms_margin by done.
    simpl. unfold margin. lia.
Qed.

Lemma zip_factors (factors : list Z) (antecedents : list t) :
  Forall (λ f, 0 ≤ f) factors →
  Forall (λ c, nonneg (terms c)) antecedents →
  Forall (λ p, 0 ≤ p.1 ∧ nonneg (terms p.2)) (zip factors antecedents).
Proof.
  intros Hf. revert antecedents.
  induction Hf as [|f fs Hf _ IH]; intros antecedents Ha; [constructor|].
  destruct Ha as [|c cs Hc Hcs]; [constructor|].
  simpl. constructor; [done | by apply IH].
Qed.

Lemma weighted_nonneg (x : Z → Z) (factors : list Z) (antecedents : list t) :
  Forall (λ f, 0 ≤ f) factors →
  Forall (satisfies x) antecedents →
  0 ≤ weighted x (zip factors antecedents).
Proof.
  intros Hf. revert antecedents.
  induction Hf as [|f fs Hf _ IH]; intros antecedents Ha; [done|].
  destruct Ha as [|c cs Hc Hcs]; [done|].
  simpl. specialize (IH _ Hcs). unfold satisfies, margin in *. nia.
Qed.

Lemma empty_wf : wf (__init__ [] 0).
Proof. apply init_wf. apply NoDup_nil_2. Qed.

(** What rule [a] returns. *)
Lemma combination_margin (factors ids : list Z) (antecedents : list t) :
  Forall (λ f, 0 ≤ f) factors →
  Forall (λ c, nonneg (terms c)) antecedents →
  ∃ r, LinearCombination.compute (LinearCombination.mk factors ids) antecedents
       = Ok [r]
       ∧ wf r
       ∧ ∀ x, margin x r = weighted x (zip factors antecedents).
Proof.
  intros Hf Ha.
  destruct (accumulate_margin (zip factors antecedents) (__init__ [] 0))
    as (r & Hr & Hwf & Hm); [apply empty_wf | by apply zip_factors |].
  exists r. unfold LinearCombination.compute; simpl.
  unfold mbind, result_bind. rewrite Hr. split_and!; [done..|].
  intros x. rewrite Hm. unfold margin; simpl. lia.
Qed.

Lemma combination_satisfied (x : Z → Z) (factors : list Z)
    (antecedents : list t) (r : t) :
  Forall (λ f, 0 ≤ f) factors →
  Forall (satisfies x) antecedents →
  margin x r = weighted x (zip factors antecedents) →
  satisfies x r.
Proof.
  intros Hf Ha Hm. pose proof (weighted_nonneg x _ _ Hf Ha).
  unfold satisfies, margin in *. lia.
Qed.

End Combination.

(** X7: on a constraint in normal form whose dict, if any, is the dict of
    its terms, [contract] leaves the margin as it is under every [x]; and
    once the dict is built, [contract] leaves no term of coefficient
    0. *)
Theorem contract_keeps_meaning (x : Z → Z) (c : Inequality.t) :
  wf c →
  margin x (Inequality.contract c) = margin x c
  ∧ Forall nz (Inequality.terms (Inequality.contract (Inequality.dict c).2)).
Proof.
  intros Hwf. split; [by apply contract_margin|].
  pose proof (dict_wf c Hwf) as [_ Hd].
  rewrite contract_terms by done.
  unfold Inequality.dict in *.
  destruct (Inequality._dict c) eqn:E; simpl in *.
  - rewrite E. apply nz_filter.
  - apply nz_filter.
Qed.

Lemma contract_keeps_meaning_witness :
  let x := λ k, if bool_decide (k = 2) then 1 else 0 in
  let c := Inequality.mk 1 [mkTerm 0 1; mkTerm 2 (-2)]
                         (Some [(1, 0%nat); (2, 1%nat)]) in
  margin x (Inequality.contract c) = margin x c
  ∧ Forall nz (Inequality.terms (Inequality.contract (Inequality.dict c).2)).
Proof.
  apply contract_keeps_meaning.
  split; [split|].
  - repeat constructor; simpl; lia.
  - distinct_keys.
  - reflexivity.
Defined.

(** X8: two constraints in normal form that [__eq__] finds equal have
    the same margin under every [x], so the same assignments satisfy
    them. *)
Theorem equal_same_meaning (x : Z → Z) (a b : Inequality.t) :
  wf a → wf b → Inequality.__eq__ a b = Ok true →
  margin x a = margin x b ∧ (satisfies x a ↔ satisfies x b).
Proof.
  intros Ha Hb Heq. pose proof (eq_margin x a b Ha Hb Heq) as Hm.
  split; [done|]. unfold margin, satisfies in *. lia.
Qed.

Lemma equal_same_meaning_witness :
  let x := λ k, if bool_decide (k = 2) then 1 else 0 in
  let a := Inequality.__init__ [mkTerm 2 1; mkTerm (-3) 2] 1 in
  let b := Inequality.__init__ [mkTerm 3 (-2); mkTerm 2 1] 4 in
  margin x a = margin x b ∧ (satisfies x a ↔ satisfies x b).
Proof.
  apply equal_same_meaning.
  - apply init_wf. distinct_keys.
  - apply init_wf. distinct_keys.
  - by vm_compute.
Defined.

(** X9: on constraints in normal form, [ConstraintEquals.compute] either
    returns or raises EqualityCheckFailed, with two constraints that say
    what the expected and the found one say; when it returns, the first
    antecedent and the expected constraint are satisfied by the same
    assignments.  The antecedents after the first are not looked at. *)
Theorem equality_rule (self : ConstraintEquals.t) (got : Inequality.t)
    (rest : list Inequality.t) :
  wf (ConstraintEquals.constraint self) → wf got →
  (ConstraintEquals.compute self (got :: rest) = Passed
   ∨ ∃ expected got',
       ConstraintEquals.compute self (got :: rest)
       = Invalid (EqualityCheckFailed expected got')
       ∧ ∀ x, margin x expected = margin x (ConstraintEquals.constraint self)
              ∧ margin x got' = margin x got)
  ∧ (ConstraintEquals.compute self (got :: rest) = Passed →
     ∀ x, satisfies x got ↔ satisfies x (ConstraintEquals.constraint self)).
Proof.
  intros Hc Hg. unfold ConstraintEquals.compute.
  destruct (Inequality.__eq__ (ConstraintEquals.constraint self) got)
    as [[|]|e] eqn:Heq.
  - split; [by left|]. intros _ x.
    pose proof (eq_margin x _ _ Hc Hg Heq). unfold margin, satisfies in *. lia.
  - split; [|done]. right. eexists _, _. split; [done|].
    intros x. by rewrite !contract_margin.
  - unfold Inequality.__eq__ in Heq; simpl in Heq. by case_bool_decide.
Qed.

Lemma equality_rule_witness :
  let self := ConstraintEquals.mk 7 (Inequality.__init__ [mkTerm 2 1; mkTerm (-3) 2] 1) in
  let got := Inequality.__init__ [mkTerm 3 (-2); mkTerm 2 1] 4 in
  (ConstraintEquals.compute self (got :: []) = Passed
   ∨ ∃ expected got',
       ConstraintEquals.compute self (got :: [])
       = Invalid (EqualityCheckFailed expected got')
       ∧ ∀ x, margin x expected = margin x (ConstraintEquals.constraint self)
              ∧ margin x got' = margin x got)
  ∧ (ConstraintEquals.compute self (got :: []) = Passed →
     ∀ x, satisfies x got ↔ satisfies x (ConstraintEquals.constraint self)).
Proof.
  apply equality_rule.
  - apply init_wf. distinct_keys.
  - apply init_wf. distinct_keys.
Defined.

(** X10: on a first antecedent without a negative coefficient,
    [IsContradiction.compute] either returns or raises
    ContradictionCheckFailed; when it returns, no assignment satisfies that
    antecedent. *)
Theorem contradiction_rule (self : IsContradiction.t) (first : Inequality.t)
    (rest : list Inequality.t) :
  nonneg (Inequality.terms first) →
  (IsContradiction.compute self (first :: rest) = Passed
   ∨ IsContradiction.compute self (first :: rest)
     = Invalid ContradictionCheckFailed)
  ∧ (IsContradiction.compute self (first :: rest) = Passed →
     ∀ x, assignment x → ¬ satisfies x first).
Proof.
  intros Hn. unfold IsContradiction.compute.
  destruct (Inequality.isContradiction first) eqn:E.
  - split; [by left|]. intros _ x Hx.
    unfold Inequality.isContradiction in E.
    rewrite slack_from in E. apply bool_decide_eq_true in E.
    pose proof (value_below x _ Hx Hn). unfold satisfies. lia.
  - split; [by right | done].
Qed.

Lemma contradiction_rule_witness :
  let first := Inequality.__init__ [mkTerm 1 1; mkTerm 2 (-2)] 4 in
  (IsContradiction.compute (IsContradiction.mk 3) (first :: []) = Passed
   ∨ IsContradiction.compute (IsContradiction.mk 3) (first :: [])
     = Invalid ContradictionCheckFailed)
  ∧ (IsContradiction.compute (IsContradiction.mk 3) (first :: []) = Passed →
     ∀ x, assignment x → ¬ satisfies x first).
Proof.
  apply contradiction_rule. apply init_nonneg_coefficients.
Defined.

(** X11: with factors that are not negative, on antecedents without a
    negative coefficient, [LinearCombination.compute] returns one
    constraint, in normal form, whose margin under every [x] is the sum of
    the margins of the antecedents, each times its factor, over the pairs
    [zip] makes; an assignment that satisfies the antecedents satisfies
    it. *)
Theorem linear_combination_sound (factors ids : list Z)
    (antecedents : list Inequality.t) :
  Forall (λ f, 0 ≤ f) factors →
  Forall (λ c, nonneg (Inequality.terms c)) antecedents →
  ∃ r, LinearCombination.compute (LinearCombination.mk factors ids) antecedents
       = Ok [r]
       ∧ normal r
       ∧ (∀ x, margin x r = weighted x (zip factors antecedents))
       ∧ (∀ x, Forall (satisfies x) antecedents → satisfies x r).
Proof.
  intros Hf Ha.
  destruct (combination_margin factors ids antecedents Hf Ha)
    as (r & Hr & Hwf & Hm).
  exists r. split_and!; [done | apply Hwf | done |].
  intros x Hs. by apply (combination_satisfied x factors antecedents).
Qed.

Lemma linear_combination_sound_witness :
  let antecedents :=
    [Inequality.__init__ [mkTerm 2 1; mkTerm 3 (-2)] 3;
     Inequality.__init__ [mkTerm 2 (-1); mkTerm 1 2; mkTerm 1 5] 1] in
  ∃ r, LinearCombination.compute (LinearCombination.mk [2; 3] [1; 2]) antecedents
       = Ok [r]
       ∧ normal r
       ∧ (∀ x, margin x r = weighted x (zip [2; 3] antecedents))
       ∧ (∀ x, Forall (satisfies x) antecedents → satisfies x r).
Proof.
  apply linear_combination_sound.
  - repeat constructor; lia.
  - repeat constructor; simpl; lia.
Defined.





Section Axioms.
Import Inequality.

(** The two constraints rule [l] makes for the variable [i]. *)
Lemma axioms_lookup (n start k : nat) :
  (k < n)%nat →
  let result :=
    flat_map (λ i, [__init__ [mkTerm 1 i] 0; __init__ [mkTerm 1 (- i)] 0])
             (map (λ k, Z.of_nat k) (seq start n)) in
  result !! (2 * k)%nat
  = Some (mk 0 [mkTerm 1 (Z.of_nat (start + k))] None)
  ∧ result !! (2 * k + 1)%nat
    = Some (mk 0 [mkTerm 1 (- Z.of_nat (start + k))] None).
Proof.
  revert start k. induction n as [|n IH]; intros start k Hk; [lia|].
  destruct k as [|k]; simpl.
  - rewrite Nat.add_0_r. by split.
  - destruct (IH (S start) k ltac:(lia)) as [H1 H2].
    replace (k + S (k + 0))%nat with (S (2 * k)) by lia. simpl.
    replace (start + S k)%nat with (S start + k)%nat by lia.
    split; [exact H1|].
    replace (S (2 * k)) with (2 * k + 1)%nat by lia. exact H2.
Qed.

Lemma axioms_length (n start : nat) :
  length (flat_map (λ i, [__init__ [mkTerm 1 i] 0; __init__ [mkTerm 1 (- i)] 0])
                   (map (λ k, Z.of_nat k) (seq start n)))
  = (2 * n)%nat.
Proof.
  revert start. induction n as [|n IH]; intros start; simpl; [done|].
  rewrite IH. lia.
Qed.

Lemma axiom_satisfied (x : Z → Z) (v : Z) :
  assignment x → satisfies x (__init__ [mkTerm 1 v] 0).
Proof.
  intros Hx. pose proof (literal_bounds x v Hx).
  unfold satisfies; simpl. lia.
Qed.

End Axioms.

(** X14: for [numLiterals = N >= 0], [LoadLitteralAxioms.compute] returns
    [numConstraints()] constraints, the constraints [1 x_i >= 0] and
    [1 ~x_i >= 0] at the places [2 i - 2] and [2 i - 1] for [i] from 1 to
    [N], and every assignment satisfies each of them. *)
Theorem literal_axioms (N : Z) (antecedents : list Inequality.t) :
  0 ≤ N →
  let result :=
    LoadLitteralAxioms.compute (LoadLitteralAxioms.mk N) antecedents in
  Z.of_nat (length result)
  = LoadLitteralAxioms.numConstraints (LoadLitteralAxioms.mk N)
  ∧ (∀ i, 1 ≤ i ≤ N →
       result !! Z.to_nat (2 * i - 2)
       = Some (Inequality.mk 0 [mkTerm 1 i] None)
       ∧ result !! Z.to_nat (2 * i - 1)
         = Some (Inequality.mk 0 [mkTerm 1 (- i)] None))
  ∧ Forall (λ c, ∀ x, assignment x → satisfies x c) result.
Proof.
  intros HN result. subst result.
  unfold LoadLitteralAxioms.compute, LoadLitteralAxioms.numConstraints,
    LoadLitteralAxioms.range_from_1.
  unfold LoadLitteralAxioms.numLiterals.
  split_and!.
  - rewrite axioms_length. lia.
  - intros i Hi.
    pose proof (axioms_lookup (Z.to_nat N) 1 (Z.to_nat (i - 1)) ltac:(lia))
      as H.
    cbv zeta in H.
    replace (Z.of_nat (1 + Z.to_nat (i - 1))) with i in H by lia.
    replace (Z.to_nat (2 * i - 2)) with (2 * Z.to_nat (i - 1))%nat by lia.
    replace (Z.to_nat (2 * i - 1)) with (2 * Z.to_nat (i - 1) + 1)%nat by lia.
    exact H.
  - apply Forall_flat_map. apply Forall_forall. intros i _.
    repeat constructor; intros x Hx; by apply axiom_satisfied.
Qed.

Lemma literal_axioms_witness :
  let result := LoadLitteralAxioms.compute (LoadLitteralAxioms.mk 3) [] in
  Z.of_nat (length result)
  = LoadLitteralAxioms.numConstraints (LoadLitteralAxioms.mk 3)
  ∧ (∀ i, 1 ≤ i ≤ 3 →
       result !! Z.to_nat (2 * i - 2)
       = Some (Inequality.mk 0 [mkTerm 1 i] None)
       ∧ result !! Z.to_nat (2 * i - 1)
         = Some (Inequality.mk 0 [mkTerm 1 (- i)] None))
  ∧ Forall (λ c, ∀ x, assignment x → satisfies x c) result.
Proof. apply (literal_axioms 3 []). lia. Defined.

Section Parsed.
Import Inequality.
Context (x : Z → Z).

Lemma clause_value (lits : list Z) :
  assignment x →
  0 ≤ value x (map (λ l, mkTerm 1 l) lits)
  ∧ (1 ≤ value x (map (λ l, mkTerm 1 l) lits)
     ↔ Exists (λ l, literal x l = 1) lits).
Proof.
  intros Hx. induction lits as [|l r [IH0 IH]]; simpl.
  - split; [done|]. rewrite Exists_nil. lia.
  - pose proof (literal_bounds x l Hx). rewrite Exists_cons.
    split; [lia|]. split.
    + intros Hv. destruct (decide (literal x l = 1)); [by left|].
      right. apply IH. lia.
    + intros [Hl|Hr]; [lia|]. apply IH in Hr. lia.
Qed.

Lemma clause_nonneg (lits : list Z) : nonneg (map (λ l, mkTerm 1 l) lits).
Proof. induction lits; simpl; constructor; [simpl; lia | done]. Qed.

Lemma tuple_proper (pairs : list (Z * Z)) (g : Z → Z) :
  Forall (λ p, p.2 ≠ 0) pairs →
  proper (map (λ '(a, v), mkTerm (g a) v) pairs).
Proof.
  induction 1 as [|[a v] r Hv _ IH]; simpl; constructor; [done | done].
Qed.

Lemma tuple_negated (pairs : list (Z * Z)) :
  value x (map (λ '(a, v), mkTerm (- a) v) pairs)
  = - value x (map (λ '(a, v), mkTerm a v) pairs).
Proof. induction pairs as [|[a v] r IH]; simpl; [done|]. rewrite IH. lia. Qed.

End Parsed.

(** X15: [fromParsy] makes one constraint of a clause, and an assignment
    satisfies it exactly when it makes a literal of the clause 1. *)
Theorem clause_meaning (x : Z → Z) (lits : list Z) :
  assignment x →
  ∃ c, Inequality.fromParsy (Inequality.Clause lits) = [c]
       ∧ (satisfies x c ↔ Exists (λ l, literal x l = 1) lits).
Proof.
  intros Hx. eexists. split; [done|].
  rewrite init_nonneg by apply clause_nonneg.
  unfold satisfies; simpl. apply clause_value. done.
Qed.

Lemma clause_meaning_witness :
  let x := λ k, if bool_decide (k = 2) then 1 else 0 in
  ∃ c, Inequality.fromParsy (Inequality.Clause [1; -2; 3]) = [c]
       ∧ (satisfies x c ↔ Exists (λ l, literal x l = 1) [1; -2; 3]).
Proof.
  apply clause_meaning.
  intros k. unfold variableUpperBounds. case_bool_decide; lia.
Defined.

(** X16: for a parsed constraint over variables other than 0,
    [x] satisfies every constraint [fromParsy] returns exactly when the
    sum of the parsed terms under [x] is greater or equal the degree,
    and equal to it when the relation is ["="]. *)
Theorem parsed_constraint_meaning (x : Z → Z) (pairs : list (Z * Z))
    (eq : string) (degree : Z) :
  Forall (λ p, p.2 ≠ 0) pairs →
  let sum := value x (map (λ '(a, v), mkTerm a v) pairs) in
  Forall (satisfies x) (Inequality.fromParsy (Inequality.Tuple pairs eq degree))
  ↔ if bool_decide (eq = "="%string) then sum = degree else degree ≤ sum.
Proof.
  intros Hp sum. simpl.
  pose proof (init_margin x _ degree (tuple_proper pairs (λ a, a) Hp)) as Hge.
  pose proof (init_margin x _ (- degree) (tuple_proper pairs Z.opp Hp)) as Hle.
  rewrite tuple_negated in Hle. fold sum in Hge, Hle.
  unfold margin in *.
  case_bool_decide.
  - rewrite Forall_cons, Forall_singleton. unfold satisfies. lia.
  - rewrite Forall_singleton. unfold satisfies. lia.
Qed.

Lemma parsed_constraint_meaning_witness :
  let x := λ k, if bool_decide (k = 2) then 1 else 0 in
  let sum := value x (map (λ '(a, v), mkTerm a v) [(2, 1); (-3, -2)]) in
  Forall (satisfies x)
         (Inequality.fromParsy (Inequality.Tuple [(2, 1); (-3, -2)] "=" 0))
  ↔ if bool_decide ("="%string = "="%string) then sum = 0 else 0 ≤ sum.
Proof.
  apply (parsed_constraint_meaning _ [(2, 1); (-3, -2)] "=" 0).
  repeat constructor; simpl; lia.
Defined.

Section Postponed.
Import LazyInequality.

Lemma apply_ops_snoc (degs : list Z) (ops : list operation) (o : operation)
    (v : Z) :
  apply_ops degs (ops ++ [o]) v
  = (v' ← apply_ops degs ops v; apply_op degs v' o).
Proof.
  revert v. induction ops as [|p r IH]; intros v; simpl.
  - by destruct (apply_op degs v o).
  - destruct (apply_op degs v p) as [v'|e]; simpl; [apply IH | done].
Qed.

Lemma apply_ops_degrees (degs extra : list Z) (ops : list operation) (v : Z) :
  Forall (λ o, match o with
               | OpS i => (i < length degs)%nat
               | _ => True
               end) ops →
  apply_ops (degs ++ extra) ops v = apply_ops degs ops v.
Proof.
  intros H. revert v. induction H as [|o r Ho _ IH]; intros v; simpl; [done|].
  assert (apply_op (degs ++ extra) v o = apply_op degs v o) as ->.
  { destruct o as [i|i|i]; simpl; [|done..].
    by rewrite lookup_app_l. }
  destruct (apply_op degs v o); simpl; [apply IH | done].
Qed.

(** Reading a term through one more operation. *)
Lemma applyTerm_snoc (c : Inequality.t) (ops : list operation)
    (degs degs' : list Z) (o : operation) (g : Z → Z) (t : Term) :
  (∀ v, apply_ops degs' ops v = apply_ops degs ops v) →
  (∀ v, apply_op degs' v o = Ok (g v)) →
  applyTerm (mk c (ops ++ [o]) degs') t
  = (u ← applyTerm (mk c ops degs) t;
     Ok (mkTerm (g (coefficient u)) (variable u))).
Proof.
  intros Hsame Hop. unfold applyTerm, apply.
  cbn [operations degrees constraint].
  rewrite apply_ops_snoc, Hsame.
  destruct (apply_ops degs ops (coefficient t)) as [v|e]; [|done].
  unfold mbind, result_bind. by rewrite Hop.
Qed.

Lemma terms_snoc (c : Inequality.t) (ops : list operation) (degs degs' : list Z)
    (o : operation) (g : Z → Z) (ts : list Term) :
  (∀ v, apply_ops degs' ops v = apply_ops degs ops v) →
  (∀ v, apply_op degs' v o = Ok (g v)) →
  terms (mk c ops degs) = Ok ts →
  terms (mk c (ops ++ [o]) degs')
  = Ok (map (λ t, mkTerm (g (coefficient t)) (variable t)) ts).
Proof.
  intros Hsame Hop. unfold terms. cbn [constraint]. revert ts.
  induction (Inequality.terms c) as [|t r IH]; intros ts.
  - by intros [= <-].
  - cbn [map_result].
    rewrite (applyTerm_snoc c ops degs degs' o g t Hsame Hop).
    destruct (applyTerm (mk c ops degs) t) as [u|e]; [|done].
    unfold mbind, result_bind in *.
    destruct (map_result (applyTerm (mk c ops degs)) r) as [us|e]; [|done].
    intros [= <-]. by rewrite (IH us).
Qed.

Lemma degree_snoc (c : Inequality.t) (ops : list operation)
    (degs degs' : list Z) (o : operation) (g : Z → Z) (d : Z) :
  (∀ v, apply_ops degs' ops v = apply_ops degs ops v) →
  (∀ v, apply_op degs' v o = Ok (g v)) →
  degree (mk c ops degs) = Ok d →
  degree (mk c (ops ++ [o]) degs') = Ok (g d).
Proof.
  intros Hsame Hop. unfold degree, apply; simpl.
  rewrite apply_ops_snoc, Hsame. intros ->. simpl. apply Hop.
Qed.

Lemma reads_init (c : Inequality.t) : reads (__init__ c) c.
Proof.
  split_and!; [constructor | apply lazy_terms | done].
Qed.

Lemma recorded_snoc (c : Inequality.t) (ops : list operation)
    (degs extra : list Z) (o : operation) :
  recorded (mk c ops degs) →
  match o with
  | OpS i => (i < length (degs ++ extra))%nat
  | _ => True
  end →
  recorded (mk c (ops ++ [o]) (degs ++ extra)).
Proof.
  unfold recorded; simpl. intros H Ho. apply Forall_app. split.
  - eapply Forall_impl; [exact H|]. intros [i|i|i]; [|done..].
    rewrite length_app. lia.
  - by constructor.
Qed.

(** One call, postponed or not. *)
Lemma reads_call (l : t) (c c' : Inequality.t) (o : call) :
  reads l c → call_now c o = Ok c' →
  ∃ l', call_later l o = Ok l' ∧ reads l' c'.
Proof.
  destruct l as [c0 ops degs]. intros (Hrec & Hts & Hdeg).
  destruct o as [f|d|]; simpl.
  - intros [= <-]. eexists; split; [done|].
    unfold multiply; simpl. split_and!.
    + rewrite <- (app_nil_r degs). by apply recorded_snoc.
    + by apply (terms_snoc _ _ degs _ _ (λ v, v * f)).
    + by apply (degree_snoc _ _ degs _ _ (λ v, v * f)).
  - unfold Inequality.divide. case_bool_decide as Hd; [done|].
    intros [= <-]. eexists; split; [done|].
    assert (∀ v, apply_op degs v (OpD (Num d)) = Ok ((v + d - 1) `div` d))
      as Hop.
    { intros v; simpl. by rewrite bool_decide_eq_false_2. }
    unfold divide; simpl. split_and!.
    + rewrite <- (app_nil_r degs). by apply recorded_snoc.
    + by apply (terms_snoc _ _ degs _ _ (λ v, (v + d - 1) `div` d)).
    + by apply (degree_snoc _ _ degs _ _ (λ v, (v + d - 1) `div` d)).
  - intros [= <-]. unfold saturate; simpl.
    unfold degree, apply in Hdeg; simpl in Hdeg. unfold apply; simpl.
    rewrite Hdeg; simpl. eexists; split; [done|].
    set (dg := Inequality.degree c) in *.
    assert (∀ v, apply_ops (degs ++ [dg]) ops v = apply_ops degs ops v)
      as Hsame by (intros v; by apply apply_ops_degrees).
    assert (∀ v, apply_op (degs ++ [dg]) v
                   (OpS (length (degs ++ [dg]) - 1)) = Ok (Z.min v dg))
      as Hop.
    { intros v; simpl. rewrite length_app; simpl.
      replace (length degs + 1 - 1)%nat with (length degs) by lia.
      rewrite list_lookup_middle by done. f_equal. lia. }
    split_and!.
    + apply recorded_snoc; [done|]. rewrite length_app; simpl. lia.
    + rewrite saturate_terms. fold dg.
      by apply (terms_snoc _ _ degs _ _ (λ v, Z.min v dg)).
    + rewrite saturate_degree. fold dg.
      rewrite (degree_snoc _ _ degs _ _ (λ v, Z.min v dg) dg); [|done..].
      f_equal. lia.
Qed.

Lemma reads_calls (os : list call) (l : t) (c c' : Inequality.t) :
  reads l c → calls call_now c os = Ok c' →
  ∃ l', calls call_later l os = Ok l' ∧ reads l' c'.
Proof.
  revert l c. induction os as [|o r IH]; intros l c Hr; simpl.
  - intros [= <-]. by exists l.
  - destruct (call_now c o) as [c1|e] eqn:E; simpl; [|done].
    destruct (reads_call l c c1 o Hr E) as (l1 & -> & Hr1). simpl.
    by apply IH.
Qed.

End Postponed.

(** X17: if a sequence of [multiply], [divide] and [saturate] on an
    [Inequality] raises nothing, the same calls on the [LazyInequality] of
    that constraint raise nothing, and the properties [terms] and [degree]
    of the result read the terms and the degree of the [Inequality]
    operated on. *)
Theorem postponed_reads_the_same (c c' : Inequality.t) (os : list call) :
  calls call_now c os = Ok c' →
  ∃ l, calls call_later (LazyInequality.__init__ c) os = Ok l
       ∧ LazyInequality.terms l = Ok (Inequality.terms c')
       ∧ LazyInequality.degree l = Ok (Inequality.degree c').
Proof.
  intros H.
  destruct (reads_calls os _ c c' (reads_init c) H) as (l & Hl & _ & Ht & Hd).
  by exists l.
Qed.

Lemma postponed_reads_the_same_witness :
  ∃ l, calls call_later
         (LazyInequality.__init__ (Inequality.__init__ [mkTerm 5 1; mkTerm 3 (-2)] 4))
         [CallMultiply 3; CallSaturate; CallDivide 2; CallSaturate]
       = Ok l
       ∧ LazyInequality.terms l = Ok [mkTerm 6 1; mkTerm 5 (-2)]
       ∧ LazyInequality.degree l = Ok 6.
Proof.
  apply (postponed_reads_the_same
           (Inequality.__init__ [mkTerm 5 1; mkTerm 3 (-2)] 4)
           (Inequality.mk 6 [mkTerm 6 1; mkTerm 5 (-2)]
                          (Some [(1, 0%nat); (2, 1%nat)]))).
  by vm_compute.
Defined.

Section Antecedents.
Import ReversePolishNotation.


End Antecedents.

Section Sound.
Import Inequality.
Context (x : Z → Z) (Hx : assignment x).















End Sound.

Section Blank.

Lemma split_blank (line : string) :
  blank line = true → split_from EmptyString line = [].
Proof.
  induction line as [|c rest IH]; simpl; [done|].
  intros H. apply andb_true_iff in H as [-> Hrest]. by apply IH.
Qed.

End Blank.





(** X20: on a line of white space, [ReversePolishNotation.parse] raises
    IndexError whatever the parser of [getParser] would say, and
    [IsContradiction.parse] and [LoadFormula.parse] raise ValueError. *)
Theorem blank_lines (reparse : result unit) (line : string)
    (formula : list Inequality.t) :
  blank line = true →
  ReversePolishNotation.parse reparse line = Raise IndexError
  ∧ IsContradiction.parse line = Raise ValueError
  ∧ LoadFormula.parse line formula = Raise ValueError.
Proof.
  intros Hb. apply split_blank in Hb.
  unfold ReversePolishNotation.parse, ReversePolishNotation.parse_line,
    IsContradiction.parse, LoadFormula.parse, split.
  rewrite Hb. by split_and!.
Qed.

Lemma blank_lines_witness :
  ReversePolishNotation.parse (Raise ParseError) "   " = Raise IndexError
  ∧ IsContradiction.parse "   " = Raise ValueError
  ∧ LoadFormula.parse "   " [] = Raise ValueError.
Proof. by apply blank_lines. Defined.

Section Swap.
Import ReversePolishNotation.

Lemma swap_at_other (pre rest : list Ins) (x : Ins) :
  scalar x = false →
  swap_at (pre ++ x :: rest) (length pre) = pre ++ x :: rest.
Proof.
  intros Hx. unfold swap_at. rewrite list_lookup_middle by done.
  unfold scalar in Hx. by rewrite Hx.
Qed.

Lemma swap_at_scalar (pre rest : list Ins) (x y : Ins) :
  scalar y = true →
  swap_at (pre ++ x :: y :: rest) (S (length pre)) = pre ++ y :: x :: rest.
Proof.
  intros Hy. unfold swap_at.
  rewrite lookup_app_r by lia.
  replace (S (length pre) - length pre)%nat with 1%nat by lia.
  cbn [lookup list_lookup].
  unfold scalar in Hy. rewrite Hy.
  rewrite list_lookup_middle by done.
  rewrite (insert_app_r_alt pre _ (S (length pre))) by lia.
  replace (S (length pre) - length pre)%nat with 1%nat by lia.
  rewrite (insert_app_r_alt pre _ (length pre)) by lia.
  by rewrite Nat.sub_diag.
Qed.

(** The rounds of the loop of [__init__] after the one of [x]. *)
Lemma swap_rounds (n : nat) :
  ∀ rest pre x,
    (length rest ≤ n)%nat →
    scalar x = false → operands_first true rest = true →
    fold_left swap_at (seq (S (length pre)) (length rest)) (pre ++ x :: rest)
    = pre ++ swapped (x :: rest).
Proof.
  induction n as [|n IH]; intros rest pre x Hn Hx Hrest.
  { destruct rest; [done | simpl in Hn; lia]. }
  destruct rest as [|y rest]; [done|].
  cbn [length seq fold_left]. cbn [operands_first] in Hrest.
  destruct (scalar y) eqn:Hy.
  - rewrite swap_at_scalar by done.
    cbn [swapped]. rewrite Hy.
    destruct rest as [|z rest]; [done|].
    cbn [operands_first] in Hrest. simpl in Hrest.
    destruct (scalar z) eqn:Hz; [done|].
    cbn [length seq fold_left].
    replace (pre ++ y :: x :: z :: rest) with ((pre ++ [y; x]) ++ z :: rest)
      by (by rewrite <- app_assoc).
    assert (S (S (length pre)) = length (pre ++ [y; x])) as Hlen
      by (rewrite length_app; simpl; lia).
    rewrite Hlen. rewrite swap_at_other by done.
    rewrite IH; [|simpl in Hn; lia|done..].
    by rewrite <- app_assoc.
  - replace (pre ++ x :: y :: rest) with ((pre ++ [x]) ++ y :: rest)
      by (by rewrite <- app_assoc).
    assert (S (length pre) = length (pre ++ [x])) as Hlen
      by (rewrite length_app; simpl; lia).
    rewrite Hlen. rewrite swap_at_other by done.
    rewrite IH; [|simpl in Hn; lia|done..].
    rewrite <- app_assoc. cbn [swapped app]. by rewrite Hy.
Qed.

Lemma init_swapped (tokens : list Ins) :
  operands_first false tokens = true →
  instructions (__init__ tokens) = swapped tokens.
Proof.
  destruct tokens as [|x rest]; [done|].
  cbn [operands_first]. destruct (scalar x) eqn:Hx; [done|]. intros Hrest.
  unfold __init__. cbn [instructions length seq fold_left].
  pose proof (swap_at_other [] rest x Hx) as H0.
  cbn [app length] in H0. rewrite H0.
  by apply (swap_rounds (length rest) rest [] x).
Qed.

End Swap.

(** X21: where every [*] and [d] follows a token that is neither,
    [ReversePolishNotation.__init__] stores the tokens with each [*] and
    [d] in front of the token it followed, and the others in their
    order. *)
Theorem init_swaps (tokens : list Ins) :
  operands_first false tokens = true →
  ReversePolishNotation.instructions (ReversePolishNotation.__init__ tokens)
  = swapped tokens.
Proof. apply init_swapped. Qed.

Lemma init_swaps_witness :
  ReversePolishNotation.instructions
    (ReversePolishNotation.__init__
       [Num 1; Num 3; Op Times; Num 2; Op Plus; Num 2; Op Div; Op Sat])
  = swapped [Num 1; Num 3; Op Times; Num 2; Op Plus; Num 2; Op Div; Op Sat].
Proof. by apply init_swaps. Defined.

Section Ids.
Import ReversePolishNotation.

Lemma scalar_op (y : Ins) :
  scalar y = true → ∃ o, y = Op o ∧ (o = Times ∨ o = Div).
Proof.
  unfold scalar. intros Hy. apply bool_decide_eq_true in Hy.
  destruct Hy as [->| ->]; eexists; split; eauto.
Qed.

Lemma antecedents_other (x : Ins) (rest : list Ins) :
  scalar x = false →
  antecedents_of (x :: rest)
  = match x with Num k => k :: antecedents_of rest | Op _ => antecedents_of rest end.
Proof.
  destruct x as [k|o]; [done|]. unfold scalar. intros Hx.
  apply bool_decide_eq_false in Hx. cbn [antecedents_of].
  rewrite bool_decide_eq_false_2; [done|].
  intros [->| ->]; apply Hx; auto.
Qed.

Lemma swapped_cons (x y : Ins) (rest : list Ins) :
  swapped (x :: y :: rest)
  = if scalar y then y :: x :: swapped rest else x :: swapped (y :: rest).
Proof. done. Qed.

Lemma ids_of_cons (x y : Ins) (rest : list Ins) :
  ids_of (x :: y :: rest)
  = if scalar y then ids_of (y :: rest)
    else match x with
         | Num k => k :: ids_of (y :: rest)
         | Op _ => ids_of (y :: rest)
         end.
Proof. done. Qed.

Lemma antecedents_swapped (n : nat) :
  ∀ tokens,
    (length tokens ≤ n)%nat →
    operands_first false tokens = true →
    antecedents_of (swapped tokens) = ids_of tokens.
Proof.
  induction n as [|n IH]; intros tokens Hn Hok.
  { destruct tokens; [done | simpl in Hn; lia]. }
  destruct tokens as [|x rest]; [done|].
  cbn [operands_first] in Hok. destruct (scalar x) eqn:Hx; [done|].
  destruct rest as [|y rest].
  { cbn [swapped ids_of]. rewrite antecedents_other by done. by destruct x. }
  rewrite swapped_cons, ids_of_cons. cbn [operands_first] in Hok.
  destruct (scalar y) eqn:Hy.
  - destruct (scalar_op y Hy) as (o & -> & Ho).
    cbn [antecedents_of]. rewrite bool_decide_eq_true_2 by done.
    simpl in Hok.
    destruct rest as [|z rest]; [done|].
    rewrite ids_of_cons.
    cbn [operands_first] in Hok. destruct (scalar z) eqn:Hz; [done|].
    apply IH; [simpl in Hn; simpl; lia|].
    cbn [operands_first]. by rewrite Hz.
  - rewrite antecedents_other by done.
    rewrite IH; [done | simpl in Hn; simpl; lia |].
    cbn [operands_first]. by rewrite Hy.
Qed.

End Ids.

Section Returns.
Import ReversePolishNotation.

Lemma readable_view (c : Constraint) :
  readable c → ∃ ts d, view_terms c = Ok ts ∧ view_degree c = Ok d.
Proof.
  destruct c as [l|i]; simpl.
  - intros (e & _ & Ht & Hd). by eexists _, _.
  - intros _. by eexists _, _.
Qed.

Lemma plus_returns (first second : Constraint) :
  readable first → readable second →
  ∃ sum, addWithFactor first 1 second = Ok (Materialized sum).
Proof.
  intros Hfirst Hsecond.
  destruct (readable_view second Hsecond) as (ts & d & Hts & Hd).
  destruct first as [l|i]; simpl.
  - destruct Hfirst as (e & _ & Ht & Hdeg).
    unfold LazyInequality.addWithFactor. rewrite Hdeg, Ht. simpl.
    rewrite (addWithFactor_view _ 1 second ts d) by done. by eexists.
  - rewrite (addWithFactor_view _ 1 second ts d) by done. by eexists.
Qed.

Lemma call_returns (constraint : Constraint) (o : call) :
  readable constraint →
  match o with CallDivide d => d ≠ 0 | _ => True end →
  ∃ result,
    match o with
    | CallMultiply f => multiply constraint (Num f)
    | CallDivide d => divide constraint (Num d)
    | CallSaturate => saturate constraint
    end = Ok result
    ∧ readable result.
Proof.
  intros Hc Ho.
  assert (∀ e, ∃ e', call_now e o = Ok e') as Hnow.
  { intros e. destruct o as [f|d|]; simpl; [by eexists| |by eexists].
    unfold Inequality.divide. rewrite bool_decide_eq_false_2 by done.
    by eexists. }
  destruct constraint as [l|i].
  - destruct Hc as (e & Hr). destruct (Hnow e) as (e' & He').
    destruct (reads_call l e e' o Hr He') as (l' & Hl' & Hr').
    exists (Lazy l'). split; [|by exists e'].
    destruct o as [f|d|]; simpl in *.
    + by injection Hl' as <-.
    + by injection Hl' as <-.
    + by rewrite Hl'.
  - destruct (Hnow i) as (e' & He'). exists (Materialized e').
    split; [|done].
    destruct o as [f|d|]; simpl in *.
    + by injection He' as <-.
    + by rewrite He'.
    + by injection He' as <-.
Qed.

Lemma run_returns (n : nat) :
  ∀ it stack antecedents m,
    (length it ≤ n)%nat →
    stack_after (length stack) it = Some m →
    (length (antecedents_of it) ≤ length antecedents)%nat →
    Forall readable stack →
    ∃ result, run it stack antecedents = Ok result
              ∧ length result = m ∧ Forall readable result.
Proof.
  induction n as [|n IH]; intros it stack antecedents m Hn Hm Hlen Hst.
  { destruct it; [|simpl in Hn; lia]. simpl in *. injection Hm as <-.
    by exists stack. }
  destruct it as [|[k|o] it].
  - simpl in *. injection Hm as <-. by exists stack.
  - simpl in Hlen, Hm, Hn.
    destruct antecedents as [|a rest]; [simpl in Hlen; lia|].
    cbn [run].
    apply IH; [lia | done | simpl in Hlen; lia |].
    constructor; [|done]. exists a. apply reads_init.
  - destruct o.
    + simpl in Hlen, Hm, Hn.
      destruct stack as [|second [|first stack]]; [done..|].
      inv Hst. inv H2.
      destruct (plus_returns first second) as (sum & Hsum); [done..|].
      cbn [run pop mbind result_bind]. rewrite Hsum. cbn [mbind result_bind].
      apply IH; [lia | done | done | by constructor].
    + destruct it as [|[f|?] it]; [done | | done].
      cbn [stack_after] in Hm. cbn [antecedents_of] in Hlen.
      rewrite bool_decide_eq_true_2 in Hlen by (by left).
      destruct stack as [|constraint stack]; [done|]. inv Hst.
      destruct (call_returns constraint (CallMultiply f)) as (r & Hr & Hread);
        [done..|].
      cbn [run pop mbind result_bind]. rewrite Hr. cbn [mbind result_bind].
      apply IH; [simpl in Hn; lia | done | done | by constructor].
    + destruct it as [|[d|?] it]; [done | | done].
      cbn [stack_after] in Hm. cbn [antecedents_of] in Hlen.
      rewrite bool_decide_eq_true_2 in Hlen by (by right).
      case_bool_decide as Hd; [done|].
      destruct stack as [|constraint stack]; [done|]. inv Hst.
      destruct (call_returns constraint (CallDivide d)) as (r & Hr & Hread);
        [done..|].
      cbn [run pop mbind result_bind]. rewrite Hr. cbn [mbind result_bind].
      apply IH; [simpl in Hn; lia | done | done | by constructor].
    + simpl in Hlen, Hm, Hn.
      destruct stack as [|constraint stack]; [done|]. inv Hst.
      destruct (call_returns constraint CallSaturate) as (r & Hr & Hread);
        [done..|].
      cbn [run pop mbind result_bind]. rewrite Hr. cbn [mbind result_bind].
      apply IH; [lia | done | done | by constructor].
Qed.

End Returns.

(** X22: where every [*] and [d] follows a token that is neither, the ids
    [antecedentIDs] yields for the rule [__init__] makes of the tokens are
    the ints of the line that are not in front of a [*] or a [d], in their
    order. *)
Theorem ids_of_the_line (tokens : list Ins) :
  operands_first false tokens = true →
  ReversePolishNotation.antecedentIDs (ReversePolishNotation.__init__ tokens)
  = ids_of tokens.
Proof.
  intros Hok. unfold ReversePolishNotation.antecedentIDs.
  rewrite init_swapped by done.
  by apply (antecedents_swapped (length tokens)).
Qed.

Lemma ids_of_the_line_witness :
  ReversePolishNotation.antecedentIDs
    (ReversePolishNotation.__init__
       [Num 1; Num 3; Op Times; Num 2; Op Plus; Num 2; Op Div; Op Sat])
  = ids_of [Num 1; Num 3; Op Times; Num 2; Op Plus; Num 2; Op Div; Op Sat].
Proof. by apply ids_of_the_line. Defined.

(** X23: if every operator of the instructions finds its operands on the
    stack, every [*] and [d] is in front of an int, that of [d] not 0, one
    element is left at the end, and there is an antecedent for every id,
    then [ReversePolishNotation.compute] returns one constraint, whose
    terms and degree can be read. *)
Theorem reverse_polish_returns (self : ReversePolishNotation.t)
    (antecedents : list Inequality.t) :
  stack_after 0 (ReversePolishNotation.instructions self) = Some 1%nat →
  (length (ReversePolishNotation.antecedentIDs self) ≤ length antecedents)%nat →
  ∃ c ts d, ReversePolishNotation.compute self antecedents = Ok [c]
            ∧ view_terms c = Ok ts ∧ view_degree c = Ok d.
Proof.
  intros Hm Hlen.
  destruct (run_returns _ (ReversePolishNotation.instructions self) []
              antecedents 1%nat (le_n _) Hm Hlen (Forall_nil_2 _))
    as (result & Hrun & Hone & Hread).
  destruct result as [|c [|? ?]]; [done| |done].
  inv Hread.
  assert (readable (view_contract c)) as Hc by (by destruct c).
  destruct (readable_view _ Hc) as (ts & d & Hts & Hd).
  exists (view_contract c), ts, d.
  unfold ReversePolishNotation.compute. by rewrite Hrun.
Qed.

Lemma reverse_polish_returns_witness :
  ∃ c ts d,
    ReversePolishNotation.compute
      (ReversePolishNotation.mk
         [Num 1; Op Times; Num 3; Op Sat; Num 2; Op Plus; Op Div; Num 2])
      [example_db 1; example_db 2] = Ok [c]
    ∧ view_terms c = Ok ts ∧ view_degree c = Ok d.
Proof. apply reverse_polish_returns; [reflexivity | simpl; lia]. Defined.

(** X24: [saturate] on a saturated constraint changes nothing. *)
Theorem saturate_twice (c : Inequality.t) :
  Inequality.saturate (Inequality.saturate c) = Inequality.saturate c.
Proof.
  assert (∀ d ts,
            map (λ term, mkTerm (Z.min (coefficient term) d) (variable term))
                (map (λ term, mkTerm (Z.min (coefficient term) d) (variable term))
                     ts)
            = map (λ term, mkTerm (Z.min (coefficient term) d) (variable term)) ts)
    as Hmin.
  { intros d ts. rewrite map_map. apply map_ext. intros t. simpl.
    by rewrite Z.min_l by lia. }
  destruct c as [deg ts [d|]];
    unfold Inequality.saturate, Inequality.dict; simpl; by rewrite Hmin.
Qed.

(** * Sums, compared with a dict on both sides *)

Section WithDict.
Import Inequality.

Lemma dict_built (c : t) :
  terms (dict c).2 = terms c ∧ degree (dict c).2 = degree c
  ∧ _dict (dict c).2 ≠ None.
Proof.
  unfold dict. destruct (_dict c) eqn:E; simpl; [|done].
  by rewrite E.
Qed.

(** Two constraints in normal form with the same coefficient on every
    variable and the same degree, every negated literal written out,
    compare equal once both have a dict, and have the same margin. *)
Lemma same_sums (a b : t) :
  wf a → wf b →
  (∀ k, sval (terms a) k = sval (terms b) k) →
  cdeg (terms a) (degree a) = cdeg (terms b) (degree b) →
  __eq__ (dict a).2 (dict b).2 = Ok true
  ∧ ∀ x, margin x a = margin x b.
Proof.
  intros Ha Hb Hs Hc.
  destruct (dict_built a) as (Hta & Hda & Hna).
  destruct (dict_built b) as (Htb & Hdb & Hnb).
  assert (__eq__ (dict a).2 (dict b).2 = Ok true) as Heq.
  { apply eq_by_sval.
    - by apply dict_wf.
    - by apply dict_wf.
    - by intros Hnone.
    - by intros Hnone.
    - intros k. by rewrite Hta, Htb.
    - by rewrite Hta, Htb, Hda, Hdb. }
  split; [done|]. intros x.
  pose proof (eq_margin x _ _ (dict_wf a Ha) (dict_wf b Hb) Heq) as Hm.
  unfold margin in *. by rewrite Hta, Htb, Hda, Hdb in Hm.
Qed.

End WithDict.

(** X28: for constraints [a] and [b] in normal form,
    [a.addWithFactor(1, b)] and [b.addWithFactor(1, a)] raise nothing,
    have the same margin under every [x], and compare equal once each has
    its dict, so that [contract] acts on both. *)
Theorem add_commutes_with_dict (a b : Inequality.t) :
  wf a → wf b →
  ∃ ab ba,
    Inequality.addWithFactor a 1 b = Ok ab
    ∧ Inequality.addWithFactor b 1 a = Ok ba
    ∧ (∀ x, margin x ab = margin x ba)
    ∧ Inequality.__eq__ (Inequality.dict ab).2 (Inequality.dict ba).2
      = Ok true.
Proof.
  intros Ha Hb.
  exists (add_terms a 1 (Inequality.terms b) (Inequality.degree b)),
         (add_terms b 1 (Inequality.terms a) (Inequality.degree a)).
  split_and!; [by apply addWithFactor_view..| |].
  all: apply same_sums;
    [ apply add_terms_wf; [done | lia | apply Hb]
    | apply add_terms_wf; [done | lia | apply Ha]
    | intros k; rewrite !add_terms_sval by (done || apply Ha || apply Hb); lia
    | rewrite !add_terms_cdeg by (done || apply Ha || apply Hb); lia ].
Qed.

Lemma add_commutes_with_dict_witness :
  ∃ ab ba,
    Inequality.addWithFactor (Inequality.__init__ [mkTerm 0 1] 0) 1
      (Inequality.__init__ [] 0) = Ok ab
    ∧ Inequality.addWithFactor (Inequality.__init__ [] 0) 1
        (Inequality.__init__ [mkTerm 0 1] 0) = Ok ba
    ∧ (∀ x, margin x ab = margin x ba)
    ∧ Inequality.__eq__ (Inequality.dict ab).2 (Inequality.dict ba).2
      = Ok true.
Proof.
  apply add_commutes_with_dict.
  - apply init_wf. distinct_keys.
  - apply init_wf. distinct_keys.
Defined.

(** X29: for a sum in reverse Polish notation, of ids and [+] alone, on
    antecedents in normal form, rule [p] and rule [a] on the same ids, in
    the same order and with every factor 1, both return one constraint.
    The terms and the degree of the one of rule [p] can be read; under
    every [x] the sum of these terms exceeds this degree by the margin of
    the one of rule [a]; and the [Inequality] made of them compares equal
    to the one of rule [a] once each has its dict, so that [contract]
    acts on both. *)
Theorem sum_in_rpn_with_dict (db : Z → Inequality.t) (sequence : list Ins) :
  let p := ReversePolishNotation.__init__ sequence in
  let ids := ReversePolishNotation.antecedentIDs p in
  let a := LinearCombination.mk (replicate (length ids) 1) ids in
  balanced 0 sequence = true →
  Forall (λ id, normal (db id)) ids →
  ∃ by_p by_a ts d,
    ReversePolishNotation.compute p (map db ids) = Ok [by_p]
    ∧ LinearCombination.compute a (map db (LinearCombination.antecedentIDs a))
      = Ok [by_a]
    ∧ view_terms by_p = Ok ts ∧ view_degree by_p = Ok d
    ∧ (∀ x, value x ts - d = margin x by_a)
    ∧ Inequality.__eq__ (Inequality.dict (Inequality.__init__ ts d)).2
                        (Inequality.dict by_a).2 = Ok true.
Proof.
  intros p ids a Hb Hn. subst a ids p.
  unfold ReversePolishNotation.antecedentIDs in *.
  rewrite (init_sum sequence 0 Hb) in *.
  set (cs := map db (ReversePolishNotation.antecedents_of sequence)) in *.
  (* rule p *)
  destruct (run_sum db sequence 0%nat [] [] Hb eq_refl stack_empty Hn)
    as (e & Hrun & He).
  fold cs in Hrun, He. simpl in He.
  (* rule a *)
  assert (Forall normal cs) as Hcs.
  { unfold cs. clear -Hn. induction Hn; simpl; by constructor. }
  destruct (accumulate_ones cs (Inequality.__init__ [] 0)) as
    (r & Hacc & Hr & Hs & Hc & _); [| done |].
  { apply init_wf. apply NoDup_nil_2. }
  assert (∀ k, sval (Inequality.terms r) k = total_sval cs k) as Hs'.
  { intros k. rewrite Hs. simpl. lia. }
  assert (cdeg (Inequality.terms r) (Inequality.degree r) = total_cdeg cs)
    as Hc'.
  { rewrite Hc. unfold cdeg. simpl. lia. }
  (* what rule p returns, as a constraint *)
  assert (∃ ts d, view_terms (view_contract e) = Ok ts
                  ∧ view_degree (view_contract e) = Ok d
                  ∧ nonneg ts ∧ distinct ts
                  ∧ (∀ k, sval ts k = total_sval cs k)
                  ∧ cdeg ts d = total_cdeg cs) as (ts & d & Hts & Hd & Hnn & Hdis & Hsv & Hcd).
  { destruct He as [c Hnc|i cs' Hwf Hsum].
    - exists (Inequality.terms c), (Inequality.degree c).
      split_and!; [apply lazy_terms | apply lazy_degree | apply Hnc
                   | apply Hnc | intros k; simpl; lia | simpl; lia].
    - destruct Hsum as (Hn' & Hd' & Hs'' & Hc'' & _ & _).
      pose proof (contract_wf i Hwf) as [[Hcn Hcd] _].
      exists (Inequality.terms (Inequality.contract i)),
             (Inequality.degree (Inequality.contract i)).
      split_and!; try done.
      + intros k. rewrite contract_terms by apply Hwf.
        destruct (Inequality._dict i); [|done].
        by rewrite sval_filter.
      + rewrite contract_terms, contract_degree by apply Hwf.
        destruct (Inequality._dict i); [|done].
        unfold cdeg in *. by rewrite negsum_filter. }
  exists (view_contract e), r, ts, d.
  assert (wf (Inequality.__init__ ts d)) as Hwf'.
  { rewrite init_nonneg by done. by split. }
  destruct (same_sums (Inequality.__init__ ts d) r Hwf' Hr) as [Heq Hm].
  { intros k. rewrite init_nonneg by done. simpl. by rewrite Hsv, Hs'. }
  { rewrite init_nonneg by done. simpl. by rewrite Hcd, Hc'. }
  split_and!; [| |done|done| |done].
  - unfold ReversePolishNotation.compute.
    rewrite (init_sum sequence 0 Hb). fold cs. by rewrite Hrun.
  - unfold LinearCombination.compute, LinearCombination.antecedentIDs.
    cbn [LinearCombination.factors LinearCombination.antecedentIds].
    fold cs.
    replace (length (ReversePolishNotation.antecedents_of sequence))
      with (length cs) by (unfold cs; apply length_map).
    by rewrite Hacc.
  - intros x. rewrite <- Hm. rewrite init_nonneg by done. done.
Qed.

Lemma sum_in_rpn_with_dict_witness :
  let db := λ id : Z, if bool_decide (id = 1)
                      then Inequality.__init__ [mkTerm 0 1] 1
                      else Inequality.__init__ [] 0 in
  let sequence := [Num 1; Num 2; Op Plus] in
  let p := ReversePolishNotation.__init__ sequence in
  let ids := ReversePolishNotation.antecedentIDs p in
  let a := LinearCombination.mk (replicate (length ids) 1) ids in
  ∃ by_p by_a ts d,
    ReversePolishNotation.compute p (map db ids) = Ok [by_p]
    ∧ LinearCombination.compute a (map db (LinearCombination.antecedentIDs a))
      = Ok [by_a]
    ∧ view_terms by_p = Ok ts ∧ view_degree by_p = Ok d
    ∧ (∀ x, value x ts - d = margin x by_a)
    ∧ Inequality.__eq__ (Inequality.dict (Inequality.__init__ ts d)).2
                        (Inequality.dict by_a).2 = Ok true.
Proof.
  apply (sum_in_rpn_with_dict
           (λ id : Z, if bool_decide (id = 1)
                      then Inequality.__init__ [mkTerm 0 1] 1
                      else Inequality.__init__ [] 0)
           [Num 1; Num 2; Op Plus]).
  - reflexivity.
  - apply Forall_forall. intros id _.
    case_bool_decide; apply init_wf; distinct_keys.
Defined.
